(** * MLB team timeline: franchise resolver, tenure blocks, roster filter

    A shallow embedding of [mlb_team_timeline_app.py].  The three pandas
    frames are lists of records (one record per row, in frame order), the
    module-level dictionaries are an insertion-ordered association list
    ([OFFICIAL_TEAM_NAMES], which the resolver iterates) and finite maps
    ([TEAM_COLORS], [TEAM_NAMES], which are only looked up). *)

From Stdlib Require Import QArith.
From stdpp Require Import base option list strings gmap sorting pretty.

Local Open Scope Z_scope.

(** ** Data model *)

(** A cell of the [franchid] column after a left merge: a franchise code,
    or the [NaN] that pandas fills in for a row without a match. *)
Abbreviation cell := (option string).
Abbreviation NaN := (@None string).

(** People.csv: [namefirst], [namelast] and [finalgame] may be missing. *)
Module People.
Record row := Row {
  playerid : string;
  namefirst : option string;
  namelast : option string;
  finalgame : option string }.
End People.

(** Batting.csv: one row per player, season and team. *)
Module Batting.
Record row := Row {
  playerid : string;
  yearid : Z;
  teamid : string }.
End Batting.

(** Teams.csv restricted to [['teamid', 'yearid', 'franchid']]. *)
Module Teams.
Record row := Row {
  teamid : string;
  yearid : Z;
  franchid : string }.
End Teams.

(** A row of a batting frame merged with the teams frame. *)
Module Merged.
Record row := Row {
  playerid : string;
  yearid : Z;
  teamid : string;
  franchid : cell }.
End Merged.

(** A block is the tuple [(start_year, end_year, team)]. *)
Abbreviation TenureBlock := (Z * Z * cell)%type.

Definition start_year (b : TenureBlock) : Z := b.1.1.
Definition end_year (b : TenureBlock) : Z := b.1.2.

(** The years a block spans, both ends included. *)
Definition in_block (y : Z) (b : TenureBlock) : Prop :=
  start_year b ≤ y ∧ y ≤ end_year b.

(** Python exceptions the modelled code could raise. *)
Inductive exn := IndexError | UnboundLocalError | KeyError.

Inductive result (A : Type) :=
  | Ok (a : A)
  | Raise (e : exn).
Arguments Ok {A} a.
Arguments Raise {A} e.

(** Sequencing of calls that may raise. *)
Definition result_bind {A B} (r : result A) (k : A → result B) : result B :=
  match r with
  | Ok a => k a
  | Raise e => Raise e
  end.

(** ** Static tables *)

Definition TEAM_COLORS : gmap string string :=
  list_to_map [
    ("ARI", "#A71930"); ("ATL", "#CE1141"); ("BAL", "#DF4601"); ("BOS", "#BD3039");
    ("CHC", "#0E3386"); ("CHW", "#27251F"); ("CIN", "#C6011F"); ("CLE", "#0C2340");
    ("COL", "#33006F"); ("DET", "#0C2340"); ("HOU", "#EB6E1F"); ("KCR", "#004687");
    ("LAA", "#BA0021"); ("LAD", "#005A9C"); ("MIA", "#00A3E0"); ("MIL", "#12284B");
    ("MIN", "#002B5C"); ("NYM", "#002D72"); ("NYY", "#003087"); ("OAK", "#003831");
    ("PHI", "#E81828"); ("PIT", "#FDB827"); ("SDP", "#2F241D"); ("SEA", "#0C2C56");
    ("SFG", "#FD5A1E"); ("STL", "#C41E3A"); ("TBR", "#092C5C"); ("TEX", "#003278");
    ("TOR", "#134A8E"); ("WSN", "#AB0003") ]%string.

(** Kept as the ordered list of its items: the resolver iterates its keys. *)
Definition OFFICIAL_TEAM_NAMES : list (string * string) := [
    ("Arizona Diamondbacks", "ARI");
    ("Atlanta Braves", "ATL");
    ("Baltimore Orioles", "BAL");
    ("Boston Red Sox", "BOS");
    ("Chicago Cubs", "CHC");
    ("Chicago White Sox", "CHW");
    ("Cincinnati Reds", "CIN");
    ("Cleveland Guardians", "CLE");
    ("Colorado Rockies", "COL");
    ("Detroit Tigers", "DET");
    ("Houston Astros", "HOU");
    ("Kansas City Royals", "KCR");
    ("Los Angeles Angels", "ANA");
    ("Los Angeles Dodgers", "LAD");
    ("Miami Marlins", "FLA");
    ("Milwaukee Brewers", "MIL");
    ("Minnesota Twins", "MIN");
    ("New York Mets", "NYM");
    ("New York Yankees", "NYY");
    ("Oakland Athletics", "OAK");
    ("Philadelphia Phillies", "PHI");
    ("Pittsburgh Pirates", "PIT");
    ("San Diego Padres", "SDP");
    ("Seattle Mariners", "SEA");
    ("San Francisco Giants", "SFG");
    ("St. Louis Cardinals", "STL");
    ("Tampa Bay Rays", "TBR");
    ("Texas Rangers", "TEX");
    ("Toronto Blue Jays", "TOR");
    ("Washington Nationals", "WSN") ]%string.

(** [d.keys()], [d.values()] and [d[k]] of an insertion-ordered dict. *)
Definition dict_keys {K V} (d : list (K * V)) : list K := fst <$> d.
Definition dict_values {K V} (d : list (K * V)) : list V := snd <$> d.

Fixpoint dict_getitem (d : list (string * string)) (k : string) : result string :=
  match d with
  | [] => Raise KeyError
  | (k', v) :: d' => if decide (k' = k) then Ok v else dict_getitem d' k
  end.

(** [{v: k for k, v in OFFICIAL_TEAM_NAMES.items()}]: items are inserted in
    order, a later one overwriting an earlier one with the same key. *)
Definition TEAM_NAMES : gmap string string :=
  foldl (λ m kv, <[kv.2 := kv.1]> m) ∅ OFFICIAL_TEAM_NAMES.

(** ** Tenure block extractor *)

(** The rows a left merge on [['teamid', 'yearid']] makes of one left row:
    one per matching right row, in right order, or a single one with [NaN]
    when none matches. *)
Definition join_row (right : list Teams.row) (b : Batting.row) : list Merged.row :=
  let hits := filter (λ t, Teams.teamid t = Batting.teamid b
                         ∧ Teams.yearid t = Batting.yearid b) right in
  let out := Merged.Row (Batting.playerid b) (Batting.yearid b) (Batting.teamid b) in
  match hits with
  | [] => [out NaN]
  | _ => (λ t, out (Some (Teams.franchid t))) <$> hits
  end.

(** [left.merge(teams_df[['teamid','yearid','franchid']],
    on=['teamid','yearid'], how='left')]: the left rows are kept in left
    order. *)
Definition merge_left (left : list Batting.row) (right : list Teams.row)
  : list Merged.row :=
  b ← left; join_row right b.

(** The order of [sort_values('yearid')]. *)
Definition year_le (r1 r2 : Merged.row) : Prop :=
  Merged.yearid r1 ≤ Merged.yearid r2.

(** [sort_values('yearid')] uses the default sort kind, which does not
    promise to be stable: all the model fixes is that the result is a
    rearrangement of the frame in ascending year order. *)
Class SortValues := {
  sort_values : list Merged.row → list Merged.row;
  sort_values_perm l : sort_values l ≡ₚ l;
  sort_values_sorted l : Sorted year_le (sort_values l) }.

(** [team != last_team].  [last_team] is [None] before the first row and a
    cell afterwards; a [NaN] cell differs from everything, itself included. *)
Definition py_ne (team : cell) (last_team : option cell) : bool :=
  match team, last_team with
  | Some a, Some (Some b) => bool_decide (a ≠ b)
  | _, _ => true
  end.

(** The loop variables.  [last_team] and [start_year] are initialised and
    assigned together (lines 86-87 and 94-95), so they are one optional
    pair in [cur]; [year] is unbound until the first iteration. *)
Record loop_state := LoopState {
  blocks : list TenureBlock;
  cur : option (cell * Z);
  year : option Z }.

Definition loop_init : loop_state := LoopState [] None None.

(** One iteration of [for _, row in merged.iterrows()]. *)
Definition loop_body (st : loop_state) (row : Merged.row) : loop_state :=
  let y := Merged.yearid row in
  let team := Merged.franchid row in
  if py_ne team (fst <$> cur st) then
    LoopState
      (match cur st with
       | Some (last_team, start) => blocks st ++ [(start, y - 1, last_team)]
       | None => blocks st
       end)
      (Some (team, y))
      (Some y)
  else LoopState (blocks st) (cur st) (Some y).

(** Lines 97-100: the read of [year] fails when the loop never ran. *)
Definition loop_finish (st : loop_state) : result (list TenureBlock) :=
  match cur st with
  | None => Ok (blocks st)
  | Some (last_team, start) =>
      match year st with
      | Some y => Ok (blocks st ++ [(start, y, last_team)])
      | None => Raise UnboundLocalError
      end
  end.

(** [batting_df[batting_df['playerid'] == player_id]] *)
Definition player_batting (player_id : string) (batting_df : list Batting.row)
  : list Batting.row :=
  filter (λ b, Batting.playerid b = player_id) batting_df.

(** Lines 77-100, from the player id on. *)
Definition career_blocks `{SortValues} (player_id : string)
    (batting_df : list Batting.row) (teams_df : list Teams.row)
  : result (list TenureBlock) :=
  let merged := sort_values (merge_left (player_batting player_id batting_df) teams_df) in
  loop_finish (foldl loop_body loop_init merged).

(** The rows of [people_df] selected by the name mask of lines 70-72. *)
Definition name_mask (player_first player_last : string) (p : People.row) : Prop :=
  People.namefirst p = Some player_first ∧ People.namelast p = Some player_last.

#[global] Instance name_mask_dec f l p : Decision (name_mask f l p).
Proof. unfold name_mask. apply _. Defined.

(** Lines 65-100.  The three assignments that lower-case the column names
    (lines 66-68) have no counterpart: the columns are the record fields. *)
Definition get_player_team_blocks `{SortValues} (player_first player_last : string)
    (people_df : list People.row) (batting_df : list Batting.row)
    (teams_df : list Teams.row) : result (list TenureBlock) :=
  let player := filter (name_mask player_first player_last) people_df in
  if bool_decide (player = []) then Ok []
  else
    match People.playerid <$> player with
    | [] => Raise IndexError
    | player_id :: _ => career_blocks player_id batting_df teams_df
    end.

#[global] Instance year_le_dec r1 r2 : Decision (year_le r1 r2).
Proof. unfold year_le. apply _. Defined.

#[global] Instance year_le_total : Total year_le.
Proof. intros r1 r2. unfold year_le. lia. Qed.

#[global] Instance year_le_trans : Transitive year_le.
Proof. intros r1 r2 r3. unfold year_le. lia. Qed.

(** A concrete [sort_values]: stable merge sort on the year. *)
Definition stable_sort : SortValues :=
  {| sort_values := merge_sort year_le;
     sort_values_perm := merge_sort_Permutation year_le;
     sort_values_sorted := Sorted_merge_sort year_le |}.

(** ** Timeline renderer: the two table lookups of lines 118-119 *)

(** [TEAM_COLORS.get(team, "#888888")]; a [NaN] team is no key. *)
Definition team_color (team : cell) : string :=
  default "#888888" (team ≫= (TEAM_COLORS !!.)).

(** [TEAM_NAMES.get(team, "Unknown Team")] *)
Definition team_full_name (team : cell) : string :=
  default "Unknown Team" (team ≫= (TEAM_NAMES !!.)).

(** ** Franchise resolver *)

Section resolver.
(** [fuzz.WRatio] as [process.extractOne] applies it to the query and a
    choice.  It belongs to rapidfuzz; its scores are floats between 0 and
    100, which the code only compares, so they are rationals here. *)
Context (WRatio : string → string → Q).

(** One step of the search of [extractOne]: a choice replaces the best one
    so far only with a strictly higher score. *)
Definition keep_best (query : string) (best : option (string * Q))
    (choice : string) : option (string * Q) :=
  let score := WRatio query choice in
  match best with
  | Some (_, best_score) =>
      if Qle_bool score best_score then best else Some (choice, score)
  | None => Some (choice, score)
  end.

(** [process.extractOne(query, choices, scorer=fuzz.WRatio)] without a
    score cutoff: the choice with the highest score, the first of them in
    iteration order on a tie, with its score; [None] without choices. *)
Definition extractOne (query : string) (choices : list string)
  : option (string * Q) :=
  foldl (keep_best query) None choices.

(** Returns [Some (code, name)] for the pair and [None] for
    [(None, None)]. *)
Definition get_franchise_code_from_input (user_input : string)
  : result (option (string * string)) :=
  match extractOne user_input (dict_keys OFFICIAL_TEAM_NAMES) with
  | Some (name, score) =>
      if Qle_bool 70 score then
        match dict_getitem OFFICIAL_TEAM_NAMES name with
        | Ok code => Ok (Some (code, name))
        | Raise e => Raise e
        end
      else Ok None
  | None => Ok None
  end.
End resolver.

(** ** Roster filter (lines 161-187 of [main]) *)

(** [Series.unique()]: the distinct values in order of first appearance;
    all [NaN]s count as one value. *)
Fixpoint unique `{EqDecision A} (l : list A) : list A :=
  match l with
  | [] => []
  | x :: l' => x :: filter (λ y, y ≠ x) (unique l')
  end.

(** [Series.max()] of a group; [None] only for an empty one. *)
Definition series_max (ys : list Z) : option Z :=
  foldr (λ y acc, Some (from_option (Z.max y) y acc)) None ys.

(** Group keys come out sorted: player ids, and (player id, year) pairs. *)
Definition key_le (k1 k2 : string * Z) : Prop :=
  if decide (k1.1 = k2.1) then k1.2 ≤ k2.2 else String.le k1.1 k2.1.

#[global] Instance key_le_dec k1 k2 : Decision (key_le k1 k2).
Proof. unfold key_le. destruct (decide _); apply _. Defined.

(** [lambda teams: len(teams) == 1 and teams[0] == franchise_code] *)
Definition only_team (franchise_code : string) (teams : list cell) : bool :=
  match teams with
  | [team] => bool_decide (team = Some franchise_code)
  | _ => false
  end.

Section roster.
(** [pd.to_datetime(s, errors='coerce').dt.year] on one recorded
    [finalgame] string: [None] when it does not parse as a date. *)
Context (to_datetime_year : string → option Z).

Definition finalyear (p : People.row) : option Z :=
  People.finalgame p ≫= to_datetime_year.

Definition active_players_df (people : list People.row) : list People.row :=
  filter (λ p, finalyear p = None) people.

Definition active_batting (people : list People.row) (batting : list Batting.row)
  : list Batting.row :=
  filter (λ b, Batting.playerid b ∈ People.playerid <$> active_players_df people)
         batting.

(** [active_batting.groupby('playerid')['yearid'].max().reset_index()] *)
Definition latest_years (ab : list Batting.row) : list (string * Z) :=
  omap (λ k, (k,.) <$> series_max
               (Batting.yearid <$> filter (λ b, Batting.playerid b = k) ab))
       (merge_sort String.le (unique (Batting.playerid <$> ab))).

(** [left.merge(right, on=['playerid', 'yearid'], how='inner')] *)
Definition merge_inner (left : list Batting.row) (right : list (string * Z))
  : list Batting.row :=
  b ← left;
  (λ _, b) <$> filter (λ k, k.1 = Batting.playerid b ∧ k.2 = Batting.yearid b) right.

Definition latest_batting (people : list People.row) (batting : list Batting.row)
    (teams : list Teams.row) : list Merged.row :=
  let ab := active_batting people batting in
  merge_left (merge_inner ab (latest_years ab)) teams.

(** [latest_batting.groupby(['playerid', 'yearid'])['franchid'].unique()
    .reset_index()] *)
Definition teams_per_player_year (lb : list Merged.row)
  : list (string * Z * list cell) :=
  (λ k, (k, unique (Merged.franchid <$>
               filter (λ m, Merged.playerid m = k.1 ∧ Merged.yearid m = k.2) lb)))
    <$> merge_sort key_le (unique ((λ m, (Merged.playerid m, Merged.yearid m)) <$> lb)).

(** Lines 185-187 on a grouped frame with rows: [apply] gives a boolean
    mask, the rows where it is true are kept, and their [playerid] values
    are the result. *)
Definition select_only_team (franchise_code : string)
    (grouped : list (string * Z * list cell)) : list string :=
  (λ g, g.1.1) <$> filter (λ g, only_team franchise_code g.2) grouped.

(** Lines 184-187.  On a grouped frame without rows [apply] gives an empty
    Series that is no boolean mask; the frame is then indexed by it as by
    an empty list of column names, and [['playerid']] on the result raises
    [KeyError]. *)
Definition only_team_players (franchise_code : string) (people : list People.row)
    (batting : list Batting.row) (teams : list Teams.row) : result (list string) :=
  let grouped := teams_per_player_year (latest_batting people batting teams) in
  if decide (grouped = []) then Raise KeyError
  else Ok (select_only_team franchise_code grouped).

(** Lines 184-191: the names handed to the renderer. *)
Definition team_player_names (franchise_code : string) (people : list People.row)
    (batting : list Batting.row) (teams : list Teams.row)
  : result (list (string * string)) :=
  result_bind (only_team_players franchise_code people batting teams)
    (λ only_team_players,
       Ok (omap (λ p, f ← People.namefirst p; l ← People.namelast p; Some (f, l))
                (filter (λ p, People.playerid p ∈ only_team_players) people))).
End roster.

(** ** Notions used to state the properties *)

(** The player id used by the extractor: [player['playerid'].values[0]],
    when the name mask selects a row. *)
Definition lookup_player_id (player_first player_last : string)
    (people_df : list People.row) : option string :=
  head (People.playerid <$> filter (name_mask player_first player_last) people_df).

(** What the loop and the final append produce once a block is open:
    [last_team] and [start] describe the open block, [y] is the year of
    the row read last. *)
Fixpoint scan (last_team : cell) (start y : Z) (rows : list Merged.row)
  : list TenureBlock :=
  match rows with
  | [] => [(start, y, last_team)]
  | row :: rows' =>
      if py_ne (Merged.franchid row) (Some last_team)
      then (start, Merged.yearid row - 1, last_team)
             :: scan (Merged.franchid row) (Merged.yearid row) (Merged.yearid row) rows'
      else scan last_team start (Merged.yearid row) rows'
  end.

(** The blocks of a whole frame: the first row opens the first block. *)
Definition blocks_of_rows (rows : list Merged.row) : list TenureBlock :=
  match rows with
  | [] => []
  | row :: rows' =>
      scan (Merged.franchid row) (Merged.yearid row) (Merged.yearid row) rows'
  end.

(** [tiles lo hi bs]: the blocks follow one another without a hole from
    [lo] to [hi]; only the last one is known to be non-empty. *)
Inductive tiles : Z → Z → list TenureBlock → Prop :=
  | tiles_last s e t : s ≤ e → tiles s e [(s, e, t)]
  | tiles_cons s e t hi bs :
      s ≤ e + 1 → tiles (e + 1) hi bs → tiles s hi ((s, e, t) :: bs).

(** No year lies in two blocks at different positions. *)
Definition non_overlapping (bs : list TenureBlock) : Prop :=
  ∀ (i j : nat) b1 b2, (i < j)%nat → bs !! i = Some b1 → bs !! j = Some b2 →
    ∀ y, ¬ (in_block y b1 ∧ in_block y b2).

(** The blocks cover exactly the years that have a row. *)
Definition covers_exactly (bs : list TenureBlock) (rows : list Batting.row) : Prop :=
  ∀ y, (∃ b, b ∈ bs ∧ in_block y b) ↔ (∃ r, r ∈ rows ∧ Batting.yearid r = y).

(** The years from the first to the last season that has a row. *)
Definition in_career_span (y : Z) (rows : list Batting.row) : Prop :=
  ∃ r1 r2, r1 ∈ rows ∧ r2 ∈ rows ∧ Batting.yearid r1 ≤ y ≤ Batting.yearid r2.

(** The year of the row read last, [y] when there is no further row. *)
Fixpoint last_year (y : Z) (rows : list Merged.row) : Z :=
  match rows with
  | [] => y
  | row :: rows' => last_year (Merged.yearid row) rows'
  end.

(** [y] is the earliest, respectively the latest, year among the rows. *)
Definition min_year_of (rows : list Batting.row) (y : Z) : Prop :=
  (∃ r, r ∈ rows ∧ Batting.yearid r = y) ∧ ∀ r, r ∈ rows → y ≤ Batting.yearid r.

Definition max_year_of (rows : list Batting.row) (y : Z) : Prop :=
  (∃ r, r ∈ rows ∧ Batting.yearid r = y) ∧ ∀ r, r ∈ rows → Batting.yearid r ≤ y.

(** The team id [tid] resolves to the franchise code [c] in year [y]: the
    teams frame has a row for the pair, and each such row carries [c]. *)
Definition resolves_to (teams : list Teams.row) (tid : string) (y : Z) (c : string)
  : Prop :=
  let hits := filter (λ t, Teams.teamid t = tid ∧ Teams.yearid t = y) teams in
  hits ≠ [] ∧ ∀ t, t ∈ hits → Teams.franchid t = c.

(** [s] is the best score of the query against the directory names. *)
Definition best_score (WRatio : string → string → Q) (query : string) (s : Q) : Prop :=
  (∃ name, name ∈ dict_keys OFFICIAL_TEAM_NAMES ∧ WRatio query name = s)
  ∧ ∀ name, name ∈ dict_keys OFFICIAL_TEAM_NAMES → (WRatio query name <= s)%Q.

#[global] Instance Qlt_decision (x y : Q) : Decision (x < y)%Q :=
  decide (Qnum x * QDen y < Qnum y * QDen x).

#[global] Instance Qle_decision (x y : Q) : Decision (x <= y)%Q :=
  decide (Qnum x * QDen y ≤ Qnum y * QDen x).

(** A scorer for the examples: 100 for the name itself, 35/2 for a name
    that starts with the query, 0 otherwise. *)
Definition prefix_score (query choice : string) : Q :=
  if decide (query = choice) then 100
  else if String.prefix query choice then 35 # 2 else 0.

(** The franchise cells of the rows of player [pid] in season [y], after
    the join with the teams frame. *)
Definition season_codes (pid : string) (y : Z) (batting : list Batting.row)
    (teams : list Teams.row) : list cell :=
  Merged.franchid <$>
    merge_left (filter (λ b, Batting.playerid b = pid ∧ Batting.yearid b = y) batting)
               teams.

(** ** Sample data *)

Definition ex_people : list People.row :=
  [ People.Row "a01" (Some "Al") (Some "Ace") None ].

Definition ex_batting : list Batting.row :=
  [ Batting.Row "a01" 2020 "NYA"; Batting.Row "a01" 2018 "BOS";
    Batting.Row "a01" 2019 "BOS" ].


Definition ex_teams : list Teams.row :=
  [ Teams.Row "BOS" 2018 "BOS"; Teams.Row "BOS" 2019 "BOS";
    Teams.Row "NYA" 2020 "NYY" ].

Definition gap_batting : list Batting.row :=
  [ Batting.Row "a01" 2018 "BOS"; Batting.Row "a01" 2020 "BOS" ].
Definition gap_teams : list Teams.row :=
  [ Teams.Row "BOS" 2018 "BOS"; Teams.Row "BOS" 2020 "BOS" ].

Definition namesake_people : list People.row :=
  [ People.Row "c03" (Some "Cy") (Some "Ace") None;
    People.Row "a01" (Some "Al") (Some "Ace") None;
    People.Row "a02" (Some "Al") (Some "Ace") (Some "2015-10-04") ].

Definition null_batting : list Batting.row :=
  [ Batting.Row "a01" 2018 "XXX"; Batting.Row "a01" 2019 "XXX" ].

(** A stand-in for the date parser: one date that parses, the rest not. *)
Definition sample_to_datetime_year (s : string) : option Z :=
  if decide (s = "2015-10-04") then Some 2015 else None.

Definition roster_people : list People.row :=
  [ People.Row "a01" (Some "Al") (Some "Ace") None;
    People.Row "b02" (Some "Bo") (Some "Bee") (Some "2015-10-04");
    People.Row "c03" (Some "Cy") (Some "Cee") None ].

Definition roster_batting : list Batting.row :=
  [ Batting.Row "c03" 2021 "BOS"; Batting.Row "a01" 2020 "NYA";
    Batting.Row "a01" 2018 "BOS"; Batting.Row "a01" 2019 "BOS";
    Batting.Row "b02" 2015 "BOS"; Batting.Row "c03" 2021 "NYA";
    Batting.Row "c03" 2020 "NYA" ].

Definition roster_teams : list Teams.row :=
  [ Teams.Row "BOS" 2015 "BOS"; Teams.Row "BOS" 2018 "BOS";
    Teams.Row "BOS" 2019 "BOS"; Teams.Row "BOS" 2021 "BOS";
    Teams.Row "NYA" 2020 "NYY"; Teams.Row "NYA" 2021 "NYY" ].

(** ** Timeline renderer (lines 109-148) *)

(** [f"{team}"]: a franchise code as it is, [NaN] as nan. *)
Definition format_team (team : cell) : string := default "nan" team.

(** [f"{team} ({team_full_name})"] *)
Definition legend_label_of (team : cell) : string :=
  format_team team +:+ " (" +:+ team_full_name team +:+ ")".

(** One [go.Bar] trace with the arguments that vary from bar to bar; the
    orientation and the text placement are the same for all. *)
Record Bar := MkBar {
  bar_x : Z;
  bar_y : string;
  bar_base : Z;
  bar_name : string;
  bar_color : string;
  bar_text : cell;
  bar_hovertemplate : string;
  bar_showlegend : bool }.

(** The figure's traces and the set [seen_legends]. *)
Record figure := Figure {
  fig_data : list Bar;
  seen_legends : gset string }.

(** The body of [for start, end, team in blocks] (lines 118-135). *)
Definition add_block (player_name : string) (fig : figure) (b : TenureBlock)
  : figure :=
  let '(start, end_, team) := b in
  let color := team_color team in
  let full := team_full_name team in
  let legend_label := legend_label_of team in
  Figure
    (fig_data fig ++
       [ MkBar (end_ - start + 1) player_name start legend_label color team
           ("<b>" +:+ player_name +:+ "</b><br>Team: " +:+ full +:+ "<br>Years: "
              +:+ pretty start +:+ "-" +:+ pretty end_ +:+ "<extra></extra>")
           (bool_decide (legend_label ∉ seen_legends fig)) ])
    ({[ legend_label ]} ∪ seen_legends fig).

(** The body of [for first, last in player_list] (lines 114-135). *)
Definition add_player `{SortValues} (people : list People.row)
    (batting : list Batting.row) (teams : list Teams.row)
    (fig : result figure) (player : string * string) : result figure :=
  result_bind fig (λ fig,
    result_bind (get_player_team_blocks player.1 player.2 people batting teams)
      (λ blocks,
         Ok (foldl (add_block (player.1 +:+ " " +:+ player.2)) fig blocks))).

(** Returns the traces of the figure and the height of its layout; the other
    layout arguments are constants. *)
Definition plot_multiple_timelines_plotly `{SortValues}
    (player_list : list (string * string)) (people : list People.row)
    (batting : list Batting.row) (teams : list Teams.row)
  : result (list Bar * Z) :=
  result_bind (foldl (add_player people batting teams) (Ok (Figure [] ∅)) player_list)
    (λ fig, Ok (fig_data fig, 800 `max` (Z.of_nat (length player_list) * 40))).

(** ** The page (lines 174-196 of [main]) *)

(** What [main] shows below the title and the text field. *)
Inductive page :=
  | Idle
  | NoMatch (error : string)
  | NoPlayers (success warning : string)
  | Chart (success : string) (traces : list Bar) (height : Z).

(** The handling of the text field's value: nothing for the empty string,
    else the resolver, the roster filter and the renderer in turn.  The
    success message is shown before the roster filter runs; an exception of
    the filter ends the run. *)
Definition main `{SortValues} (WRatio : string → string → Q)
    (to_datetime_year : string → option Z) (team_name_input : string)
    (people : list People.row) (batting : list Batting.row)
    (teams : list Teams.row) : result page :=
  if decide (team_name_input = EmptyString) then Ok Idle
  else
    result_bind (get_franchise_code_from_input WRatio team_name_input) (λ r,
      match r with
      | None =>
          Ok (NoMatch ("No close match found for '" +:+ team_name_input
                         +:+ "'. Try a different name."))
      | Some (franchise_code, matched_name) =>
          let success := "Matched team name: " +:+ matched_name
                           +:+ " → Franchise code: " +:+ franchise_code in
          result_bind
            (team_player_names to_datetime_year franchise_code people batting teams)
            (λ team_player_names,
               if decide (length team_player_names = 0%nat) then
                 Ok (NoPlayers success
                       ("No active players found who only played for "
                          +:+ matched_name +:+ " in their latest year."))
               else
                 result_bind
                   (plot_multiple_timelines_plotly team_player_names people batting
                      teams)
                   (λ fig, Ok (Chart success fig.1 fig.2)))
      end).

(** A second [sort_values]: rows of one year come out in the reverse of
    their frame order. *)
Definition reverse_sort : SortValues :=
  {| sort_values := λ l, merge_sort year_le (reverse l);
     sort_values_perm := λ l,
       transitivity (merge_sort_Permutation year_le (reverse l)) (reverse_Permutation l);
     sort_values_sorted := λ l, Sorted_merge_sort year_le (reverse l) |}.

(** The part of a bar that places it: row label, base, width and text. *)
Definition bar_geometry (t : Bar) : string * Z * Z * cell :=
  (bar_y t, bar_base t, bar_x t, bar_text t).

Definition block_geometry (player_name : string) (b : TenureBlock)
  : string * Z * Z * cell :=
  (player_name, start_year b, end_year b - start_year b + 1, b.2).

(** The blocks the renderer gets for one entry of the player list. *)
Definition blocks_of_player `{SortValues} (people : list People.row)
    (batting : list Batting.row) (teams : list Teams.row)
    (player : string * string) : list TenureBlock :=
  match get_player_team_blocks player.1 player.2 people batting teams with
  | Ok bs => bs
  | Raise _ => []
  end.

(** The franchise codes among the cells of a season: the cells of the rows
    whose join found a TeamSeason row. *)
Definition season_franchise_codes (pid : string) (y : Z)
    (batting : list Batting.row) (teams : list Teams.row) : list string :=
  omap id (season_codes pid y batting teams).

(** A latest season with a resolved and an unresolved row. *)
Definition unresolved_batting : list Batting.row :=
  [ Batting.Row "a01" 2021 "BOS"; Batting.Row "a01" 2021 "XXX" ].

(** Two team ids of one franchise in 2018: rows that tie on the year and
    differ. *)
Definition tie_batting : list Batting.row :=
  [ Batting.Row "a01" 2018 "BOS"; Batting.Row "a01" 2019 "NYA";
    Batting.Row "a01" 2018 "BS2" ].

Definition tie_teams : list Teams.row :=
  [ Teams.Row "BOS" 2018 "BOS"; Teams.Row "BS2" 2018 "BOS";
    Teams.Row "NYA" 2019 "NYY" ].

(** A mid-season trade: two teams in 2018. *)
Definition trade_batting : list Batting.row :=
  [ Batting.Row "a01" 2018 "BOS"; Batting.Row "a01" 2018 "NYA" ].
Definition trade_teams : list Teams.row :=
  [ Teams.Row "BOS" 2018 "BOS"; Teams.Row "NYA" 2018 "NYY" ].

(** A people frame in which one final game does not parse as a date. *)
Definition coerced_people : list People.row :=
  [ People.Row "a01" (Some "Al") (Some "Ace") (Some "unknown");
    People.Row "b02" (Some "Bo") (Some "Bee") (Some "2015-10-04");
    People.Row "c03" (Some "Cy") (Some "Cee") None ].

(** Strictly ascending years. *)
Definition year_lt (r1 r2 : Merged.row) : Prop :=
  Merged.yearid r1 < Merged.yearid r2.

(** What the loop reads of a row: its year and its franchise cell. *)
Definition row_key (m : Merged.row) : Z * cell :=
  (Merged.yearid m, Merged.franchid m).

(** The batting columns of a merged row. *)
Definition batting_part (m : Merged.row) : Batting.row :=
  Batting.Row (Merged.playerid m) (Merged.yearid m) (Merged.teamid m).

(** The merge key of a teams row. *)
Definition team_key (t : Teams.row) : string * Z :=
  (Teams.teamid t, Teams.yearid t).

(** The legend state the renderer keeps: the labels seen are those of the
    traces drawn, and a trace shows its legend entry exactly when no earlier
    trace has its label. *)
Definition legend_ok (fig : figure) : Prop :=
  (∀ lbl, lbl ∈ seen_legends fig ↔ lbl ∈ bar_name <$> fig_data fig)
  ∧ ∀ (i : nat) t, fig_data fig !! i = Some t →
      (bar_showlegend t = true ↔ bar_name t ∉ bar_name <$> take i (fig_data fig)).

(** The total width of the bars drawn for a list of blocks. *)
Definition total_width (bs : list TenureBlock) : Z :=
  foldr (λ b acc, (end_year b - start_year b + 1) + acc) 0 bs.

(** [pid] is the id of a record that counts as active: its final game is
    missing or does not parse as a date. *)
Definition active_id (to_datetime_year : string → option Z)
    (people : list People.row) (pid : string) : Prop :=
  ∃ p, p ∈ people ∧ People.playerid p = pid ∧ finalyear to_datetime_year p = None.

(** * Properties *)

(** ** The loop computes the scan *)

Lemma loop_open_scan rows bs last_team start y :
  loop_finish (foldl loop_body (LoopState bs (Some (last_team, start)) (Some y)) rows)
  = Ok (bs ++ scan last_team start y rows).
Proof.
  revert bs last_team start y.
  induction rows as [|row rows IH]; intros bs last_team start y; [done|].
  cbn [foldl scan]. unfold loop_body at 2. cbn [cur blocks fmap option_fmap option_map fst].
  destruct (py_ne _ _).
  - rewrite IH, <-(assoc_L (++)). done.
  - apply IH.
Qed.

Lemma loop_blocks_of_rows rows :
  loop_finish (foldl loop_body loop_init rows) = Ok (blocks_of_rows rows).
Proof.
  destruct rows as [|row rows]; [done|].
  cbn [foldl blocks_of_rows]. unfold loop_init, loop_body at 2.
  cbn [cur blocks fmap option_fmap option_map].
  replace (py_ne (Merged.franchid row) None) with true
    by (by destruct (Merged.franchid row)).
  apply loop_open_scan.
Qed.

Lemma career_blocks_eq `{SortValues} pid batting teams :
  career_blocks pid batting teams
  = Ok (blocks_of_rows (sort_values (merge_left (player_batting pid batting) teams))).
Proof. unfold career_blocks. apply loop_blocks_of_rows. Qed.

Lemma get_player_team_blocks_eq `{SortValues} f l people batting teams :
  get_player_team_blocks f l people batting teams
  = match lookup_player_id f l people with
    | None => Ok []
    | Some pid => career_blocks pid batting teams
    end.
Proof.
  unfold get_player_team_blocks, lookup_player_id.
  destruct (filter _ people) as [|p ps]; done.
Qed.

Example ex_blocks :
  @get_player_team_blocks stable_sort "Al" "Ace" ex_people ex_batting ex_teams
  = Ok [(2018, 2019, Some "BOS"); (2020, 2020, Some "NYY")].
Proof. by vm_compute. Qed.

(** ** Blocks that tile an interval *)

Lemma tiles_le lo hi bs : tiles lo hi bs → lo ≤ hi.
Proof. induction 1; lia. Qed.

Lemma tiles_head lo hi bs :
  tiles lo hi bs → ∃ b bs', bs = b :: bs' ∧ start_year b = lo.
Proof. destruct 1; eauto. Qed.

Lemma tiles_bounds lo hi bs b :
  tiles lo hi bs → b ∈ bs → lo ≤ start_year b ∧ end_year b ≤ hi.
Proof.
  induction 1 as [s e t Hse|s e t hi bs Hse Hbs IH].
  - intros ->%list_elem_of_singleton. cbn. lia.
  - intros [->|Hb]%elem_of_cons.
    + apply tiles_le in Hbs. cbn. lia.
    + apply IH in Hb. lia.
Qed.

Lemma tiles_sorted lo hi bs : tiles lo hi bs → Sorted Z.le (start_year <$> bs).
Proof.
  induction 1 as [s e t Hse|s e t hi bs Hse Hbs IH]; cbn.
  - repeat constructor.
  - constructor; [done|].
    destruct (tiles_head _ _ _ Hbs) as (b & bs' & -> & Hb).
    constructor. cbn in *. lia.
Qed.

Lemma tiles_non_overlapping lo hi bs : tiles lo hi bs → non_overlapping bs.
Proof.
  induction 1 as [s e t Hse|s e t hi bs Hse Hbs IH];
    intros i j b1 b2 Hij H1 H2 y [Hy1 Hy2].
  - destruct i, j as [|[|j]]; try lia; done.
  - destruct j as [|j]; [lia|]. cbn in H2.
    destruct i as [|i]; cbn in H1.
    + injection H1 as <-.
      apply list_elem_of_lookup_2, (tiles_bounds _ _ _ _ Hbs) in H2.
      unfold in_block in *. cbn in *. lia.
    + apply (IH i j b1 b2 ltac:(lia) H1 H2 y). done.
Qed.

Lemma tiles_union lo hi bs y :
  tiles lo hi bs → (∃ b, b ∈ bs ∧ in_block y b) ↔ lo ≤ y ≤ hi.
Proof.
  intros Hbs. split.
  - intros (b & Hb & Hy). apply (tiles_bounds _ _ _ _ Hbs) in Hb.
    unfold in_block in Hy. lia.
  - induction Hbs as [s e t Hse|s e t hi bs Hse Hbs IH]; intros Hy.
    + exists (s, e, t). split; [by left|done].
    + destruct (decide (y ≤ e)) as [Hye|Hye].
      * exists (s, e, t). split; [by left|]. unfold in_block. cbn. lia.
      * destruct IH as (b & Hb & Hyb); [lia|].
        exists b. split; [by right|done].
Qed.

(** ** The scan over rows in ascending year order *)

Lemma last_year_elem y rows :
  rows = [] ∧ last_year y rows = y
  ∨ ∃ r, r ∈ rows ∧ Merged.yearid r = last_year y rows.
Proof.
  revert y. induction rows as [|row rows IH]; intros y; [by left|].
  right. cbn. destruct (IH (Merged.yearid row)) as [[-> ->]|(r & Hr & <-)].
  - exists row. split; [by left|done].
  - exists r. split; [by right|done].
Qed.

Lemma last_year_ge y rows :
  StronglySorted year_le rows → Forall (λ r, y ≤ Merged.yearid r) rows →
  y ≤ last_year y rows ∧ ∀ r, r ∈ rows → Merged.yearid r ≤ last_year y rows.
Proof.
  intros Hs. revert y.
  induction Hs as [|row rows Hs IH Hrow]; intros y Hy; cbn.
  - split; [lia|]. by intros r ?%elem_of_nil.
  - apply Forall_cons in Hy as [Hy _].
    destruct (IH (Merged.yearid row)) as [H1 H2]; [done|].
    split; [lia|]. intros r [->|Hr]%elem_of_cons; auto.
Qed.

Lemma scan_tiles rows :
  StronglySorted year_le rows → ∀ t s y,
  s ≤ y → Forall (λ r, y ≤ Merged.yearid r) rows →
  tiles s (last_year y rows) (scan t s y rows).
Proof.
  induction 1 as [|row rows Hs IH Hrow]; intros t s y Hsy Hy; cbn.
  - by constructor.
  - apply Forall_cons in Hy as [Hy _].
    destruct (py_ne _ _).
    + constructor; [lia|].
      replace (Merged.yearid row - 1 + 1) with (Merged.yearid row) by lia.
      by apply IH.
    + apply IH; [lia|done].
Qed.

(** A run of rows of one franchise stays in the open block. *)
Lemma scan_same c rows s y :
  Forall (λ r, Merged.franchid r = Some c) rows →
  scan (Some c) s y rows = [(s, last_year y rows, Some c)].
Proof.
  intros Hc. revert s y.
  induction Hc as [|row rows Hrow Hc IH]; intros s y; cbn; [done|].
  rewrite Hrow. cbn. rewrite bool_decide_eq_false_2 by naive_solver. apply IH.
Qed.

(** The blocks of a non-empty year-sorted frame tile the interval from its
    first to its last year. *)
Lemma blocks_of_rows_tiles row rows :
  Sorted year_le (row :: rows) →
  tiles (Merged.yearid row) (last_year (Merged.yearid row) rows)
        (blocks_of_rows (row :: rows)).
Proof.
  intros Hs%Sorted_StronglySorted; [|apply _].
  apply StronglySorted_inv in Hs as [Hs Hrow].
  by apply scan_tiles.
Qed.

(** ** The left merge keeps every batting row *)

Lemma elem_of_merge_left m left right :
  m ∈ merge_left left right ↔ ∃ b, b ∈ left ∧ m ∈ join_row right b.
Proof.
  unfold merge_left. rewrite list_elem_of_bind. split; intros (b & ? & ?); eauto.
Qed.

Lemma merge_left_elem m left right :
  m ∈ merge_left left right →
  ∃ b, b ∈ left ∧ Merged.playerid m = Batting.playerid b
       ∧ Merged.yearid m = Batting.yearid b ∧ Merged.teamid m = Batting.teamid b.
Proof.
  unfold merge_left. intros (b & Hm & Hb)%list_elem_of_bind.
  exists b. split; [done|]. unfold join_row in Hm.
  destruct (filter _ right) as [|t ts].
  - by apply list_elem_of_singleton in Hm as ->.
  - by apply list_elem_of_fmap in Hm as (t' & -> & _).
Qed.

Lemma merge_left_kept b left right :
  b ∈ left →
  ∃ m, m ∈ merge_left left right ∧ Merged.playerid m = Batting.playerid b
       ∧ Merged.yearid m = Batting.yearid b ∧ Merged.teamid m = Batting.teamid b.
Proof.
  intros Hb.
  assert (∃ c, Merged.Row (Batting.playerid b) (Batting.yearid b) (Batting.teamid b) c
               ∈ merge_left left right) as [c Hc]; [|by eexists].
  unfold merge_left. setoid_rewrite list_elem_of_bind. unfold join_row.
  destruct (filter (λ t, Teams.teamid t = Batting.teamid b
                         ∧ Teams.yearid t = Batting.yearid b) right)
    as [|t ts] eqn:Hf.
  - exists NaN, b. rewrite Hf. split; [by left|done].
  - exists (Some (Teams.franchid t)), b. rewrite Hf. split; [by left|done].
Qed.


(** ** The sorted frame of one player *)

Section sorted_frame.
Context `{SortValues}.
Implicit Types (pb : list Batting.row) (teams : list Teams.row).

Lemma sorted_frame_elem pb teams m :
  m ∈ sort_values (merge_left pb teams) ↔ m ∈ merge_left pb teams.
Proof. by rewrite sort_values_perm. Qed.

Lemma sorted_frame_nil pb teams :
  sort_values (merge_left pb teams) = [] ↔ pb = [].
Proof.
  split.
  - intros Hnil. destruct pb as [|b pb]; [done|].
    destruct (merge_left_kept b (b :: pb) teams) as (m & Hm & _); [by left|].
    apply sorted_frame_elem in Hm. rewrite Hnil in Hm. by apply elem_of_nil in Hm.
  - intros ->. apply Permutation_nil_r. exact (sort_values_perm (merge_left [] teams)).
Qed.

Lemma sorted_frame_span pb teams row rows :
  sort_values (merge_left pb teams) = row :: rows →
  min_year_of pb (Merged.yearid row)
  ∧ max_year_of pb (last_year (Merged.yearid row) rows).
Proof.
  intros Hsorted.
  assert (StronglySorted year_le (row :: rows)) as Hs.
  { rewrite <-Hsorted. apply Sorted_StronglySorted; [apply _|apply sort_values_sorted]. }
  apply StronglySorted_inv in Hs as [Hs Hrow].
  assert (∀ m, m ∈ row :: rows → ∃ b, b ∈ pb ∧ Batting.yearid b = Merged.yearid m)
    as Hfrom.
  { intros m Hm. rewrite <-Hsorted in Hm. apply sorted_frame_elem in Hm.
    apply merge_left_elem in Hm as (b & Hb & _ & Hy & _). eauto. }
  assert (∀ b, b ∈ pb → ∃ m, m ∈ row :: rows ∧ Merged.yearid m = Batting.yearid b)
    as Hto.
  { intros b Hb. destruct (merge_left_kept b pb teams Hb) as (m & Hm & _ & Hy & _).
    exists m. split; [|done]. rewrite <-Hsorted. by apply sorted_frame_elem. }
  destruct (last_year_ge (Merged.yearid row) rows Hs Hrow) as [Hge Hmax].
  split; split.
  - apply Hfrom. by left.
  - intros b (m & Hm & <-)%Hto. apply elem_of_cons in Hm as [->|Hm]; [lia|].
    rewrite Forall_forall in Hrow. by apply Hrow.
  - destruct (last_year_elem (Merged.yearid row) rows) as [[_ ->]|(r & Hr & <-)].
    + apply Hfrom. by left.
    + apply Hfrom. by right.
  - intros b (m & Hm & <-)%Hto. apply elem_of_cons in Hm as [->|Hm]; auto.
Qed.

(** A frame that is already in ascending year order, and in which rows of
    one year are equal, is left as it is by any [sort_values]. *)
Lemma sort_values_sorted_id (rows : list Merged.row) :
  StronglySorted year_le rows →
  (∀ r1 r2, r1 ∈ rows → r2 ∈ rows → Merged.yearid r1 = Merged.yearid r2 → r1 = r2) →
  sort_values rows = rows.
Proof.
  intros Hs Heq. symmetry.
  apply (StronglySorted_unique_strong year_le); [|done| |symmetry; apply sort_values_perm].
  - intros r1 r2 Hr1 Hr2 H12 H21. apply Heq; [done| |unfold year_le in *; lia].
    by rewrite sort_values_perm in Hr2.
  - apply Sorted_StronglySorted; [apply _|apply sort_values_sorted].
Qed.

End sorted_frame.

Lemma in_career_span_iff rows ymin ymax y :
  min_year_of rows ymin → max_year_of rows ymax →
  in_career_span y rows ↔ ymin ≤ y ≤ ymax.
Proof.
  intros [(r1 & Hr1 & <-) Hmin] [(r2 & Hr2 & <-) Hmax]. split.
  - intros (r1' & r2' & ?%Hmin & ?%Hmax & ?). lia.
  - intros ?. by exists r1, r2.
Qed.

Lemma lookup_player_id_app f l pre p post :
  Forall (λ q, ¬ name_mask f l q) pre → name_mask f l p →
  lookup_player_id f l (pre ++ p :: post) = Some (People.playerid p).
Proof.
  intros Hpre Hp. unfold lookup_player_id.
  rewrite filter_app, filter_cons_True by done.
  replace (filter (name_mask f l) pre) with (@nil People.row); [done|].
  symmetry. induction Hpre as [|q pre Hq Hpre IH]; [done|].
  by rewrite filter_cons_False.
Qed.

Lemma lookup_player_id_None f l people :
  Forall (λ q, ¬ name_mask f l q) people → lookup_player_id f l people = None.
Proof.
  intros Hno. unfold lookup_player_id.
  induction Hno as [|q people Hq Hno IH]; [done|].
  by rewrite filter_cons_False.
Qed.

(** ** Tenure block extractor: order, coverage, totality *)

(** C1, as amended.  The blocks of a player come in ascending order of
    start year, no year lies in two of them, and together they cover
    exactly the span from the player's first to last season with a batting
    row: every year with a row lies in a block, and a block may also hold
    gap years inside that span. *)
Theorem blocks_sorted_disjoint_span `{SortValues} f l people batting teams pid :
  lookup_player_id f l people = Some pid →
  ∃ bs, get_player_team_blocks f l people batting teams = Ok bs
    ∧ Sorted Z.le (start_year <$> bs)
    ∧ non_overlapping bs
    ∧ (∀ y, (∃ b, b ∈ bs ∧ in_block y b) ↔ in_career_span y (player_batting pid batting))
    ∧ (∀ r, r ∈ player_batting pid batting →
            ∃ b, b ∈ bs ∧ in_block (Batting.yearid r) b).
Proof.
  intros Hpid. rewrite get_player_team_blocks_eq, Hpid, career_blocks_eq.
  eexists. split; [done|].
  destruct (sort_values _) as [|row rows] eqn:Hsorted.
  - apply sorted_frame_nil in Hsorted. rewrite Hsorted. cbn.
    split; [constructor|]. split; [by intros [] ?????|].
    split; [|by intros r ?%elem_of_nil].
    intros y. split; [by intros (b & ?%elem_of_nil & _)|].
    by intros (r1 & _ & ?%elem_of_nil & _).
  - pose proof (sort_values_sorted (merge_left (player_batting pid batting) teams)) as Hs.
    rewrite Hsorted in Hs. apply blocks_of_rows_tiles in Hs.
    destruct (sorted_frame_span _ _ _ _ Hsorted) as [Hmin Hmax].
    assert (∀ y, (∃ b, b ∈ blocks_of_rows (row :: rows) ∧ in_block y b)
                 ↔ in_career_span y (player_batting pid batting)) as Hspan.
    { intros y. by rewrite (tiles_union _ _ _ y Hs), (in_career_span_iff _ _ _ y Hmin Hmax). }
    split; [by eapply tiles_sorted|]. split; [by eapply tiles_non_overlapping|].
    split; [done|]. intros r Hr. apply Hspan. exists r, r. repeat split; [done..|lia|lia].
Qed.

Lemma blocks_sorted_disjoint_span_witness :
  ∃ bs, @get_player_team_blocks stable_sort "Al" "Ace" ex_people gap_batting gap_teams = Ok bs
    ∧ Sorted Z.le (start_year <$> bs)
    ∧ non_overlapping bs
    ∧ (∀ y, (∃ b, b ∈ bs ∧ in_block y b) ↔ in_career_span y (player_batting "a01" gap_batting))
    ∧ (∀ r, r ∈ player_batting "a01" gap_batting →
            ∃ b, b ∈ bs ∧ in_block (Batting.yearid r) b).
Proof. apply (@blocks_sorted_disjoint_span stable_sort). reflexivity. Defined.

(** C1 as stated fails: with rows in 2018 and 2020 for one franchise the
    single block 2018-2020 holds 2019, a year without a row. *)
Lemma blocks_cover_exactly_counterexample :
  ∃ bs, @get_player_team_blocks stable_sort "Al" "Ace" ex_people gap_batting gap_teams = Ok bs
    ∧ ¬ covers_exactly bs (player_batting "a01" gap_batting).
Proof.
  exists [(2018, 2020, Some "BOS")]. split; [by vm_compute|].
  intros Hcov. destruct (proj1 (Hcov 2019)) as (r & Hr & Hy).
  - eexists. split; [by left|]. unfold in_block. cbn. lia.
  - vm_compute in Hr. apply elem_of_cons in Hr as [->|Hr].
    + discriminate Hy.
    + apply list_elem_of_singleton in Hr as ->. discriminate Hy.
Qed.

(** C8.  The extractor never raises: it always returns a list of blocks,
    and that list is empty when no record carries the name and when the
    player found has no batting row. *)
Theorem extractor_total `{SortValues} f l people batting teams :
  (∃ bs, get_player_team_blocks f l people batting teams = Ok bs)
  ∧ (Forall (λ p, ¬ name_mask f l p) people →
     get_player_team_blocks f l people batting teams = Ok [])
  ∧ (∀ pid, lookup_player_id f l people = Some pid →
       player_batting pid batting = [] →
       get_player_team_blocks f l people batting teams = Ok []).
Proof.
  rewrite get_player_team_blocks_eq. split; [|split].
  - destruct (lookup_player_id f l people); [|by eexists].
    rewrite career_blocks_eq. by eexists.
  - intros Hno. by rewrite lookup_player_id_None.
  - intros pid -> Hrows. rewrite career_blocks_eq.
    by rewrite (proj2 (sorted_frame_nil _ teams) Hrows).
Qed.

Lemma extractor_total_witness :
  (∃ bs, @get_player_team_blocks stable_sort "Bo" "Bee" ex_people ex_batting ex_teams = Ok bs)
  ∧ @get_player_team_blocks stable_sort "Bo" "Bee" ex_people ex_batting ex_teams = Ok []
  ∧ @get_player_team_blocks stable_sort "Al" "Ace" ex_people [] ex_teams = Ok [].
Proof.
  split; [|split].
  - apply (@extractor_total stable_sort).
  - apply (@extractor_total stable_sort). repeat constructor. by intros [? ?].
  - apply (proj2 (proj2 (@extractor_total stable_sort "Al" "Ace" ex_people [] ex_teams))
             "a01"); reflexivity.
Defined.

(** C10.  The player is chosen by the two names alone: the first record of
    [people_df] that carries them gives the player id, the records after
    it are not looked at, and the blocks are those of that id. *)
Theorem first_name_match_wins `{SortValues} f l pre p post batting teams :
  Forall (λ q, ¬ name_mask f l q) pre →
  People.namefirst p = Some f → People.namelast p = Some l →
  get_player_team_blocks f l (pre ++ p :: post) batting teams
  = career_blocks (People.playerid p) batting teams
  ∧ get_player_team_blocks f l (pre ++ p :: post) batting teams
    = get_player_team_blocks f l [p] batting teams.
Proof.
  intros Hpre Hf Hl.
  rewrite !get_player_team_blocks_eq.
  pose proof (lookup_player_id_app f l [] p [] (Forall_nil_2 _)) as Hone.
  cbn [app] in Hone.
  rewrite (lookup_player_id_app f l pre p post), Hone; done.
Qed.

Lemma first_name_match_wins_witness :
  @get_player_team_blocks stable_sort "Al" "Ace" namesake_people ex_batting ex_teams
  = @career_blocks stable_sort "a01" ex_batting ex_teams
  ∧ @get_player_team_blocks stable_sort "Al" "Ace" namesake_people ex_batting ex_teams
    = @get_player_team_blocks stable_sort "Al" "Ace"
        [People.Row "a01" (Some "Al") (Some "Ace") None] ex_batting ex_teams.
Proof.
  apply (@first_name_match_wins stable_sort "Al" "Ace"
           [People.Row "c03" (Some "Cy") (Some "Ace") None]
           (People.Row "a01" (Some "Al") (Some "Ace") None)
           [People.Row "a02" (Some "Al") (Some "Ace") (Some "2015-10-04")]).
  - repeat constructor. intros [Hf _]. discriminate Hf.
  - reflexivity.
  - reflexivity.
Defined.

(** ** Runs of rows of one season *)

Lemma join_row_resolved teams b c :
  resolves_to teams (Batting.teamid b) (Batting.yearid b) c →
  join_row teams b ≠ []
  ∧ Forall (λ m, m = Merged.Row (Batting.playerid b) (Batting.yearid b)
                        (Batting.teamid b) (Some c)) (join_row teams b).
Proof.
  unfold resolves_to, join_row. cbn zeta.
  destruct (filter _ teams) as [|t ts]; intros [Hne Hc]; [done|].
  split; [done|]. rewrite Forall_fmap. apply Forall_forall. intros t' Ht'. cbn.
  by rewrite (Hc t' Ht').
Qed.

Lemma last_year_app y rows1 rows2 :
  last_year y (rows1 ++ rows2) = last_year (last_year y rows1) rows2.
Proof. revert y. induction rows1 as [|r rows1 IH]; intros y; cbn; auto. Qed.




(** C3.  When every batting row of the player resolves to the one
    franchise code [c], and there is at least one row, the extractor
    returns the single block [(min_year, max_year, c)], whatever gaps the
    years have. *)
Theorem single_franchise_single_block `{SortValues} f l people batting teams pid c :
  lookup_player_id f l people = Some pid →
  player_batting pid batting ≠ [] →
  (∀ b, b ∈ player_batting pid batting →
        resolves_to teams (Batting.teamid b) (Batting.yearid b) c) →
  ∃ ymin ymax,
    get_player_team_blocks f l people batting teams = Ok [(ymin, ymax, Some c)]
    ∧ min_year_of (player_batting pid batting) ymin
    ∧ max_year_of (player_batting pid batting) ymax.
Proof.
  intros Hpid Hrows Hc. rewrite get_player_team_blocks_eq, Hpid, career_blocks_eq.
  destruct (sort_values _) as [|row rows] eqn:Hsorted.
  { by apply sorted_frame_nil in Hsorted. }
  destruct (sorted_frame_span _ _ _ _ Hsorted) as [Hmin Hmax].
  exists (Merged.yearid row), (last_year (Merged.yearid row) rows).
  split; [|done]. f_equal. cbn [blocks_of_rows].
  assert (Forall (λ r, Merged.franchid r = Some c) (row :: rows)) as Hall.
  { apply Forall_forall. intros m Hm.
    rewrite <-Hsorted, sorted_frame_elem in Hm.
    apply elem_of_merge_left in Hm as (b & Hb & Hm).
    destruct (join_row_resolved teams b c (Hc b Hb)) as [_ Hres].
    rewrite Forall_forall in Hres. by rewrite (Hres m Hm). }
  apply Forall_cons in Hall as [-> Hall]. by apply scan_same.
Qed.

Lemma single_franchise_single_block_witness :
  ∃ ymin ymax,
    @get_player_team_blocks stable_sort "Al" "Ace" ex_people gap_batting gap_teams
    = Ok [(ymin, ymax, Some "BOS")]
    ∧ min_year_of (player_batting "a01" gap_batting) ymin
    ∧ max_year_of (player_batting "a01" gap_batting) ymax.
Proof.
  apply (@single_franchise_single_block stable_sort _ _ _ _ _ "a01").
  - reflexivity.
  - vm_compute. discriminate.
  - intros b Hb. vm_compute in Hb.
    apply elem_of_cons in Hb as [->|Hb]; [|apply list_elem_of_singleton in Hb as ->].
    + split; [vm_compute; discriminate|].
      intros t Ht. vm_compute in Ht. by apply list_elem_of_singleton in Ht as ->.
    + split; [vm_compute; discriminate|].
      intros t Ht. vm_compute in Ht. by apply list_elem_of_singleton in Ht as ->.
Defined.



(** ** Unresolved joins *)

Lemma py_ne_NaN last_team : py_ne NaN last_team = true.
Proof. done. Qed.

Lemma join_row_unresolved teams b :
  filter (λ t, Teams.teamid t = Batting.teamid b
             ∧ Teams.yearid t = Batting.yearid b) teams = [] →
  join_row teams b
  = [Merged.Row (Batting.playerid b) (Batting.yearid b) (Batting.teamid b) NaN].
Proof. unfold join_row. by intros ->. Qed.

Lemma py_ne_after_NaN team : py_ne team (Some NaN) = true.
Proof. by destruct team. Qed.

(** Rows without a franchise never extend the open block: each of them
    closes it and opens its own. *)
Lemma scan_null_rows rows last_team s y :
  Forall (λ r, Merged.franchid r = NaN) rows →
  length (scan last_team s y rows) = S (length rows).
Proof.
  intros Hnull. revert last_team s y.
  induction Hnull as [|row rows Hrow Hnull IH]; intros last_team s y; cbn; [done|].
  rewrite Hrow. cbn. by rewrite IH.
Qed.

(** C6, where the code departs from it.  Two consecutive seasons without a
    TeamSeason row are both kept with a null franchise, but they come out
    as two blocks, not as one run: a null never compares equal to the
    null of the open block. *)
Theorem null_seasons_are_split `{SortValues} :
  get_player_team_blocks "Al" "Ace" ex_people null_batting ex_teams
  = Ok [(2018, 2018, NaN); (2019, 2019, NaN)]
  ∧ py_ne NaN (Some NaN) = true.
Proof.
  split; [|done].
  assert (lookup_player_id "Al" "Ace" ex_people = Some "a01") as Hpid by done.
  rewrite get_player_team_blocks_eq, Hpid, career_blocks_eq.
  change (merge_left _ _) with
    [Merged.Row "a01" 2018 "XXX" NaN; Merged.Row "a01" 2019 "XXX" NaN].
  rewrite sort_values_sorted_id; [done| |].
  - repeat constructor. unfold year_le. cbn. lia.
  - intros r1 r2 Hr1 Hr2.
    apply elem_of_cons in Hr1 as [->|Hr1]; [|apply list_elem_of_singleton in Hr1 as ->];
      (apply elem_of_cons in Hr2 as [->|Hr2]; [|apply list_elem_of_singleton in Hr2 as ->]);
      done.
Qed.

(** ** Palette and display names *)

Lemma dict_getitem_elem d k v :
  NoDup (dict_keys d) → (k, v) ∈ d → dict_getitem d k = Ok v.
Proof.
  unfold dict_keys. induction d as [|[k' v'] d IH]; cbn.
  - by intros _ ?%elem_of_nil.
  - intros [Hk' Hd]%NoDup_cons [[= -> ->]|Hkv]%elem_of_cons.
    + by rewrite decide_True.
    + rewrite decide_False; [by apply IH|].
      intros ->. apply Hk'. apply list_elem_of_fmap. by exists (k, v).
Qed.

Lemma dict_getitem_key d k :
  k ∈ dict_keys d → ∃ v, dict_getitem d k = Ok v ∧ (k, v) ∈ d.
Proof.
  unfold dict_keys. induction d as [|[k' v'] d IH]; cbn.
  - by intros ?%elem_of_nil.
  - destruct (decide (k' = k)) as [->|Hne].
    + intros _. exists v'. split; [done|by left].
    + intros [?|Hk]%elem_of_cons; [done|].
      destruct (IH Hk) as (v & Hv & Hin). exists v. split; [done|by right].
Qed.

Lemma OFFICIAL_TEAM_NAMES_keys_NoDup : NoDup (dict_keys OFFICIAL_TEAM_NAMES).
Proof. apply (bool_decide_unpack _). by vm_compute. Qed.

(** C7, where the code departs from it.  The palette has 30 entries and
    every directory code has a display name, but the directory codes "ANA"
    and "FLA" have no palette entry (it is keyed "LAA" and "MIA"), so the
    blocks of these two franchises get the fallback gray. *)
Theorem palette_misses_two_codes :
  size TEAM_COLORS = 30%nat
  ∧ filter (λ c, TEAM_NAMES !! c = None) (dict_values OFFICIAL_TEAM_NAMES) = []
  ∧ filter (λ c, TEAM_COLORS !! c = None) (dict_values OFFICIAL_TEAM_NAMES)
    = ["ANA"; "FLA"]
  ∧ team_color (Some "ANA") = "#888888"
  ∧ team_color (Some "FLA") = "#888888".
Proof. by vm_compute. Qed.

(** ** Franchise resolver: the acceptance threshold *)

Section resolver_facts.
Context (WRatio : string → string → Q).

Lemma extractOne_loop query choices name0 :
  ∃ name,
    foldl (keep_best WRatio query) (Some (name0, WRatio query name0)) choices
    = Some (name, WRatio query name)
    ∧ name ∈ name0 :: choices
    ∧ ∀ c, c ∈ name0 :: choices → (WRatio query c <= WRatio query name)%Q.
Proof.
  revert name0. induction choices as [|c choices IH]; intros name0; cbn [foldl].
  - exists name0. split; [done|]. split; [by left|].
    intros c ->%list_elem_of_singleton. apply Qle_refl.
  - assert (keep_best WRatio query (Some (name0, WRatio query name0)) c
            = if Qle_bool (WRatio query c) (WRatio query name0)
              then Some (name0, WRatio query name0) else Some (c, WRatio query c))
      as -> by done.
    destruct (Qle_bool (WRatio query c) (WRatio query name0)) eqn:Hle.
    + apply Qle_bool_iff in Hle.
      destruct (IH name0) as (name & -> & Hin & Hmax). exists name.
      split; [done|]. split.
      * apply elem_of_cons in Hin as [->|Hin]; [by left|by do 2 right].
      * intros c' [->|[->|Hc']%elem_of_cons]%elem_of_cons.
        -- apply Hmax. by left.
        -- eapply Qle_trans; [exact Hle|]. apply Hmax. by left.
        -- apply Hmax. by right.
    + assert (WRatio query name0 <= WRatio query c)%Q as Hlt.
      { apply Qlt_le_weak, Qnot_le_lt. rewrite <-Qle_bool_iff, Hle. done. }
      destruct (IH c) as (name & -> & Hin & Hmax). exists name.
      split; [done|]. split; [by right|].
      intros c' [->|Hc']%elem_of_cons; [|by apply Hmax].
      eapply Qle_trans; [exact Hlt|]. apply Hmax. by left.
Qed.

Lemma extractOne_best query choice choices :
  ∃ name,
    extractOne WRatio query (choice :: choices) = Some (name, WRatio query name)
    ∧ name ∈ choice :: choices
    ∧ ∀ c, c ∈ choice :: choices → (WRatio query c <= WRatio query name)%Q.
Proof. apply extractOne_loop. Qed.

(** C5.  The resolver answers NotFound exactly when the best score of the
    query against the directory names is below 70, and it never raises;
    when one name scores at least 70 and strictly above every other name,
    the answer is that name with its franchise code. *)
Theorem resolver_threshold query :
  (∃ s, best_score WRatio query s)
  ∧ (∀ s, best_score WRatio query s →
       (get_franchise_code_from_input WRatio query = Ok None ↔ (s < 70)%Q))
  ∧ (∃ r, get_franchise_code_from_input WRatio query = Ok r)
  ∧ (∀ name code,
       (name, code) ∈ OFFICIAL_TEAM_NAMES →
       (70 <= WRatio query name)%Q →
       (∀ name', name' ∈ dict_keys OFFICIAL_TEAM_NAMES → name' ≠ name →
                 (WRatio query name' < WRatio query name)%Q) →
       get_franchise_code_from_input WRatio query = Ok (Some (code, name))).
Proof.
  unfold get_franchise_code_from_input.
  destruct (extractOne_best query "Arizona Diamondbacks"
              (tail (dict_keys OFFICIAL_TEAM_NAMES))) as (best & Hbest & Hin & Hmax).
  change ("Arizona Diamondbacks" :: tail (dict_keys OFFICIAL_TEAM_NAMES))
    with (dict_keys OFFICIAL_TEAM_NAMES) in *.
  rewrite Hbest.
  destruct (dict_getitem_key _ _ Hin) as (code0 & Hcode0 & Hin0). rewrite Hcode0.
  split; [exists (WRatio query best); split; [by exists best|done]|].
  split; [|split].
  - intros s [(name & Hname & <-) Hs].
    assert (WRatio query name == WRatio query best)%Q as Heq.
    { apply Qle_antisym; [by apply Hmax|by apply Hs]. }
    rewrite Heq.
    destruct (Qle_bool 70 (WRatio query best)) eqn:Hle.
    + apply Qle_bool_iff in Hle. split; [done|].
      intros Hlt. by apply Qlt_not_le in Hlt.
    + split; [|done]. intros _. apply Qnot_le_lt. by rewrite <-Qle_bool_iff, Hle.
  - destruct (Qle_bool 70 (WRatio query best)); by eexists.
  - intros name code Hname Hge Hstrict.
    assert (name ∈ dict_keys OFFICIAL_TEAM_NAMES) as Hkey.
    { apply list_elem_of_fmap. by exists (name, code). }
    assert (best = name) as ->.
    { destruct (decide (best = name)) as [|Hne]; [done|].
      apply Hstrict in Hne; [|done]. apply Hmax in Hkey. by apply Qlt_not_le in Hne. }
    rewrite (proj2 (Qle_bool_iff _ _) Hge).
    rewrite (dict_getitem_elem _ _ _ OFFICIAL_TEAM_NAMES_keys_NoDup Hname) in Hcode0.
    by injection Hcode0 as <-.
Qed.

End resolver_facts.

Lemma resolver_threshold_witness :
  (∃ s, best_score prefix_score "Boston Red Sox" s)
  ∧ (get_franchise_code_from_input prefix_score "Chicago" = Ok None ↔ (35 # 2 < 70)%Q)
  ∧ (∃ r, get_franchise_code_from_input prefix_score "Boston Red Sox" = Ok r)
  ∧ get_franchise_code_from_input prefix_score "Boston Red Sox"
    = Ok (Some ("BOS", "Boston Red Sox")).
Proof.
  split; [apply (resolver_threshold prefix_score)|].
  split; [|split; [apply (resolver_threshold prefix_score)|]].
  - apply (resolver_threshold prefix_score "Chicago"). split.
    + exists "Chicago Cubs". split; [|reflexivity].
      apply (bool_decide_unpack _). vm_compute. exact I.
    + apply Forall_forall, (bool_decide_unpack _). vm_compute. exact I.
  - apply (resolver_threshold prefix_score "Boston Red Sox").
    + apply (bool_decide_unpack _). vm_compute. exact I.
    + vm_compute. discriminate.
    + apply (proj1 (Forall_forall
               (λ n, n ≠ "Boston Red Sox"
                     → (prefix_score "Boston Red Sox" n
                        < prefix_score "Boston Red Sox" "Boston Red Sox")%Q) _)).
      apply (bool_decide_unpack _). vm_compute. exact I.
Defined.

(** ** Roster filter *)

Lemma filter_nil_forall {A} (P : A → Prop) `{∀ x, Decision (P x)} (l : list A) :
  filter P l = [] ↔ ∀ x, x ∈ l → ¬ P x.
Proof.
  split.
  - intros Hnil x Hx HP. by apply (filter_nil_not_elem_of P l x).
  - intros Hall. induction l as [|a l IH]; [done|].
    rewrite filter_cons_False by (apply Hall; by left).
    apply IH. intros x Hx. apply Hall. by right.
Qed.

Lemma elem_of_unique `{EqDecision A} (l : list A) x : x ∈ unique l ↔ x ∈ l.
Proof.
  induction l as [|a l IH]; cbn; [done|].
  rewrite !elem_of_cons, list_elem_of_filter, IH.
  destruct (decide (x = a)); tauto.
Qed.

Lemma unique_singleton `{EqDecision A} (l : list A) c :
  unique l = [c] ↔ l ≠ [] ∧ ∀ x, x ∈ l → x = c.
Proof.
  destruct l as [|a l]; cbn.
  { split; [done|]. by intros [? _]. }
  split.
  - intros [= -> Hnil]. split; [done|].
    intros x [->|Hx]%elem_of_cons; [done|].
    rewrite filter_nil_forall in Hnil.
    destruct (decide (x = c)) as [|Hne]; [done|].
    by destruct (Hnil x (proj2 (elem_of_unique l x) Hx)).
  - intros [_ Hall]. rewrite (Hall a) by by left. f_equal.
    apply filter_nil_forall. intros x Hx Hne.
    apply (proj1 (elem_of_unique l x)) in Hx. apply Hne, Hall. by right.
Qed.

Lemma series_max_spec ys y :
  series_max ys = Some y ↔ y ∈ ys ∧ ∀ y', y' ∈ ys → y' ≤ y.
Proof.
  revert y. induction ys as [|a ys IH]; intros y.
  { split; [done|]. by intros [?%elem_of_nil _]. }
  change (series_max (a :: ys)) with (Some (from_option (Z.max a) a (series_max ys))).
  destruct (series_max ys) as [m|] eqn:Hm; cbn [from_option].
  - destruct (proj1 (IH m) eq_refl) as [Hin Hmax]. split.
    + intros [= <-]. split.
      * destruct (Z.max_spec a m) as [[_ ->]|[_ ->]]; [by right|by left].
      * intros y' [->|Hy']%elem_of_cons; [lia|]. apply Hmax in Hy'. lia.
    + intros [Hy Hle]. f_equal.
      assert (a ≤ y) by (apply Hle; by left).
      assert (m ≤ y) by (apply Hle; by right).
      apply elem_of_cons in Hy as [->|Hy]; [lia|]. apply Hmax in Hy. lia.
  - assert (ys = []) as ->.
    { destruct ys as [|b ys]; [done|]. cbn in Hm. discriminate Hm. }
    split.
    + intros [= <-]. split; [by left|].
      by intros y' ->%list_elem_of_singleton.
    + by intros [->%list_elem_of_singleton _].
Qed.

Lemma max_year_of_unique rows y1 y2 :
  max_year_of rows y1 → max_year_of rows y2 → y1 = y2.
Proof.
  intros [(r1 & Hr1 & <-) H1] [(r2 & Hr2 & <-) H2].
  apply H2 in Hr1. apply H1 in Hr2. lia.
Qed.

Lemma join_row_keys teams b m :
  m ∈ join_row teams b →
  Merged.playerid m = Batting.playerid b ∧ Merged.yearid m = Batting.yearid b.
Proof.
  unfold join_row. destruct (filter _ teams) as [|t ts].
  - by intros ->%list_elem_of_singleton.
  - by intros (t' & -> & _)%list_elem_of_fmap.
Qed.


Lemma only_team_true code teams : only_team code teams = true ↔ teams = [Some code].
Proof.
  destruct teams as [|t [|t' teams]]; cbn; [done| |done].
  rewrite bool_decide_eq_true. split; [by intros ->|by intros [= ->]].
Qed.

Section roster_facts.
Context (to_datetime_year : string → option Z).
Implicit Types (people : list People.row) (batting : list Batting.row).
Implicit Types (teams : list Teams.row) (p : People.row).

Lemma elem_of_active_batting people batting b :
  b ∈ active_batting to_datetime_year people batting
  ↔ b ∈ batting ∧ ∃ p, p ∈ people ∧ finalyear to_datetime_year p = None
                       ∧ People.playerid p = Batting.playerid b.
Proof.
  unfold active_batting, active_players_df.
  rewrite list_elem_of_filter, list_elem_of_fmap.
  setoid_rewrite list_elem_of_filter. split.
  - intros [(p & Hid & Hact & Hp) Hb]. eauto.
  - intros [Hb (p & Hp & Hact & Hid)]. eauto.
Qed.

Lemma active_rows_of_player people batting p b :
  p ∈ people → People.finalgame p = None →
  b ∈ filter (λ b, Batting.playerid b = People.playerid p)
         (active_batting to_datetime_year people batting)
  ↔ b ∈ player_batting (People.playerid p) batting.
Proof.
  intros Hp Hfinal. unfold player_batting.
  rewrite !list_elem_of_filter, elem_of_active_batting. split; [tauto|].
  intros [Hid Hb]. split; [done|]. split; [done|].
  exists p. unfold finalyear. by rewrite Hfinal.
Qed.

Lemma elem_of_latest_years (ab : list Batting.row) k y :
  (k, y) ∈ latest_years ab
  ↔ max_year_of (filter (λ b, Batting.playerid b = k) ab) y.
Proof.
  unfold latest_years, max_year_of. rewrite list_elem_of_omap. split.
  - intros (k' & _ & Hmax).
    destruct (series_max _) as [y'|] eqn:Hy'; [|done].
    injection Hmax as -> ->. apply series_max_spec in Hy' as [Hin Hle].
    apply list_elem_of_fmap in Hin as (r & -> & Hr). split; [by exists r|].
    intros r' Hr'. apply Hle, list_elem_of_fmap. by exists r'.
  - intros [(r & Hr & <-) Hle]. exists k. split.
    + rewrite merge_sort_Permutation, elem_of_unique, list_elem_of_fmap.
      apply list_elem_of_filter in Hr as [<- Hr]. by exists r.
    + rewrite (proj2 (series_max_spec _ (Batting.yearid r))); [done|]. split.
      * apply list_elem_of_fmap. by exists r.
      * intros y' (r' & -> & Hr')%list_elem_of_fmap. by apply Hle.
Qed.

Lemma elem_of_merge_inner b (left : list Batting.row) right :
  b ∈ merge_inner left right
  ↔ b ∈ left ∧ (Batting.playerid b, Batting.yearid b) ∈ right.
Proof.
  unfold merge_inner. rewrite list_elem_of_bind. split.
  - intros (b' & (k & -> & Hk)%list_elem_of_fmap & Hb).
    apply list_elem_of_filter in Hk as [[<- <-] Hk]. by destruct k.
  - intros [Hb Hk]. exists b. split; [|done].
    apply list_elem_of_fmap. eexists. split; [done|].
    apply list_elem_of_filter. split; [|exact Hk]. done.
Qed.

(** The rows of an active player in the latest-season frame are the joined
    rows of that player's most recent season. *)
Lemma latest_rows_of_active people batting teams p m :
  p ∈ people → People.finalgame p = None →
  m ∈ latest_batting to_datetime_year people batting teams
  ∧ Merged.playerid m = People.playerid p
  ↔ ∃ y, max_year_of (player_batting (People.playerid p) batting) y
         ∧ m ∈ merge_left (filter (λ b, Batting.playerid b = People.playerid p
                                        ∧ Batting.yearid b = y) batting) teams.
Proof.
  intros Hp Hfinal. unfold latest_batting.
  assert (∀ y, max_year_of (filter (λ b, Batting.playerid b = People.playerid p)
                              (active_batting to_datetime_year people batting)) y
               ↔ max_year_of (player_batting (People.playerid p) batting) y) as Hmax.
  { intros y. unfold max_year_of.
    by setoid_rewrite (active_rows_of_player people batting p _ Hp Hfinal). }
  split.
  - intros [(b & Hb & Hm)%elem_of_merge_left Hid].
    apply elem_of_merge_inner in Hb as [Hb Hlatest].
    destruct (join_row_keys _ _ _ Hm) as [Hmid Hmy]. rewrite Hid in Hmid.
    rewrite <-Hmid in Hlatest. apply elem_of_latest_years, Hmax in Hlatest.
    exists (Batting.yearid b). split; [done|].
    apply elem_of_merge_left. exists b. split; [|done].
    apply list_elem_of_filter. split; [done|].
    by apply elem_of_active_batting in Hb as [Hb _].
  - intros (y & Hy & (b & Hb & Hm)%elem_of_merge_left).
    apply list_elem_of_filter in Hb as [[Hbid Hby] Hb].
    destruct (join_row_keys _ _ _ Hm) as [Hmid Hmy].
    split; [|congruence].
    apply elem_of_merge_left. exists b. split; [|done].
    apply elem_of_merge_inner.
    assert (b ∈ active_batting to_datetime_year people batting) as Hab.
    { apply elem_of_active_batting. split; [done|]. exists p.
      unfold finalyear. by rewrite Hfinal. }
    split; [done|]. rewrite Hbid, Hby. by apply elem_of_latest_years, Hmax.
Qed.

Lemma elem_of_select_only_team code people batting teams pid :
  pid ∈ select_only_team code
          (teams_per_player_year (latest_batting to_datetime_year people batting teams))
  ↔ ∃ y,
      unique (Merged.franchid <$>
                filter (λ m, Merged.playerid m = pid ∧ Merged.yearid m = y)
                       (latest_batting to_datetime_year people batting teams))
      = [Some code].
Proof.
  unfold select_only_team, teams_per_player_year.
  rewrite list_elem_of_fmap. split.
  - intros (g & -> & Hg). apply list_elem_of_filter in Hg as [Honly Hg].
    apply Is_true_true, only_team_true in Honly.
    apply list_elem_of_fmap in Hg as ([k y] & -> & _). by exists y.
  - intros (y & Hy). eexists (pid, y, _). split; [done|].
    apply list_elem_of_filter. split.
    + apply Is_true_true, only_team_true. exact Hy.
    + apply list_elem_of_fmap. exists (pid, y). split; [done|].
      rewrite merge_sort_Permutation, elem_of_unique, list_elem_of_fmap.
      apply unique_singleton in Hy as [Hne _].
      destruct (filter _ _) as [|m ms] eqn:Hf; [done|].
      assert (m ∈ m :: ms) as Hm by by left.
      rewrite <-Hf in Hm. apply list_elem_of_filter in Hm as [[<- <-] Hm].
      by exists m.
Qed.

Lemma season_rows_keys pid y batting teams m :
  m ∈ merge_left (filter (λ b, Batting.playerid b = pid ∧ Batting.yearid b = y) batting)
                 teams →
  Merged.playerid m = pid ∧ Merged.yearid m = y.
Proof.
  intros (b & Hb & Hm)%elem_of_merge_left.
  apply list_elem_of_filter in Hb as [[<- <-] _]. by eapply join_row_keys.
Qed.

Lemma latest_year_of_active people batting teams p m :
  p ∈ people → People.finalgame p = None →
  m ∈ latest_batting to_datetime_year people batting teams →
  Merged.playerid m = People.playerid p →
  max_year_of (player_batting (People.playerid p) batting) (Merged.yearid m).
Proof.
  intros Hp Hfinal Hm Hid.
  destruct (proj1 (latest_rows_of_active people batting teams p m Hp Hfinal))
    as (y & Hy & Hrow); [done|].
  by apply season_rows_keys in Hrow as [_ ->].
Qed.

Lemma latest_codes_of_active people batting teams p y c :
  p ∈ people → People.finalgame p = None →
  max_year_of (player_batting (People.playerid p) batting) y →
  c ∈ Merged.franchid <$>
        filter (λ m, Merged.playerid m = People.playerid p ∧ Merged.yearid m = y)
               (latest_batting to_datetime_year people batting teams)
  ↔ c ∈ season_codes (People.playerid p) y batting teams.
Proof.
  intros Hp Hfinal Hy. unfold season_codes. rewrite !list_elem_of_fmap.
  split; intros (m & -> & Hm); exists m; (split; [done|]).
  - apply list_elem_of_filter in Hm as [[Hid Hmy] Hm].
    destruct (proj1 (latest_rows_of_active people batting teams p m Hp Hfinal))
      as (y' & Hy' & Hrow); [done|].
    by rewrite (max_year_of_unique _ _ _ Hy Hy').
  - destruct (season_rows_keys _ _ _ _ _ Hm) as [Hid Hmy].
    apply list_elem_of_filter. split; [done|].
    apply (latest_rows_of_active people batting teams p m Hp Hfinal). eauto.
Qed.

Lemma list_nonempty_elem {A} (l : list A) : l ≠ [] ↔ ∃ x, x ∈ l.
Proof.
  destruct l as [|a l]; split; try done.
  - by intros [x ?%elem_of_nil].
  - intros _. exists a. by left.
Qed.

Lemma max_year_exists (rows : list Batting.row) :
  rows ≠ [] → ∃ y, max_year_of rows y.
Proof.
  intros Hne. destruct (series_max (Batting.yearid <$> rows)) as [y|] eqn:Hmax.
  - exists y. apply series_max_spec in Hmax as [(r & -> & Hr)%list_elem_of_fmap Hle].
    split; [by exists r|]. intros r' Hr'. apply Hle, list_elem_of_fmap. by exists r'.
  - by destruct rows.
Qed.

(** The grouped frame has no row exactly when no batting row belongs to an
    active player. *)
Lemma grouped_frame_nil people batting teams :
  teams_per_player_year (latest_batting to_datetime_year people batting teams) = []
  ↔ active_batting to_datetime_year people batting = [].
Proof.
  set (ab := active_batting to_datetime_year people batting).
  split.
  - intros Hnil. destruct (decide (ab = [])) as [|Hne]; [done|]. exfalso.
    apply list_nonempty_elem in Hne as [b0 Hb0].
    destruct (max_year_exists (filter (λ b, Batting.playerid b = Batting.playerid b0) ab))
      as [y Hy].
    { apply list_nonempty_elem. exists b0. by apply list_elem_of_filter. }
    pose proof Hy as [(b & Hb & Hby) _].
    apply list_elem_of_filter in Hb as [Hbid Hb].
    assert (b ∈ merge_inner ab (latest_years ab)) as Hin.
    { apply elem_of_merge_inner. split; [done|].
      rewrite Hbid, Hby. by apply elem_of_latest_years. }
    destruct (merge_left_kept b _ teams Hin) as (m & Hm & _).
    assert ((Merged.playerid m, Merged.yearid m,
             unique (Merged.franchid <$>
                       filter (λ m', Merged.playerid m' = Merged.playerid m
                                     ∧ Merged.yearid m' = Merged.yearid m)
                              (latest_batting to_datetime_year people batting teams)))
            ∈ teams_per_player_year
                (latest_batting to_datetime_year people batting teams)) as Hg.
    { unfold teams_per_player_year. apply list_elem_of_fmap.
      exists (Merged.playerid m, Merged.yearid m). split; [done|].
      rewrite merge_sort_Permutation, elem_of_unique, list_elem_of_fmap.
      by exists m. }
    rewrite Hnil in Hg. by apply elem_of_nil in Hg.
  - intros Hnil. unfold latest_batting. fold ab. by rewrite Hnil.
Qed.

(** The two ways the roster filter ends. *)
Lemma only_team_players_cases code people batting teams :
  active_batting to_datetime_year people batting = []
  ∧ only_team_players to_datetime_year code people batting teams = Raise KeyError
  ∨ active_batting to_datetime_year people batting ≠ []
    ∧ only_team_players to_datetime_year code people batting teams
      = Ok (select_only_team code
              (teams_per_player_year
                 (latest_batting to_datetime_year people batting teams))).
Proof.
  unfold only_team_players. cbn zeta.
  destruct (decide (teams_per_player_year _ = [])) as [Hnil|Hne].
  - left. split; [|done]. exact (proj1 (grouped_frame_nil people batting teams) Hnil).
  - right. split; [|done]. intros Hab. apply Hne.
    exact (proj2 (grouped_frame_nil people batting teams) Hab).
Qed.

(** C4, as amended.  An active player is in the result for a franchise code
    exactly when the franchise cells of the player's most recent season,
    the null cell of an unresolved join counted as a cell of its own, are
    that one code and nothing else; two different cells in that season keep
    the player out for every code. *)
Theorem roster_filter_exclusive code people batting teams p :
  p ∈ people → People.finalgame p = None →
  ((∃ ids, only_team_players to_datetime_year code people batting teams = Ok ids
           ∧ People.playerid p ∈ ids)
   ↔ ∃ y, max_year_of (player_batting (People.playerid p) batting) y
          ∧ ∀ c, c ∈ season_codes (People.playerid p) y batting teams ↔ c = Some code)
  ∧ (∀ y c1 c2,
       max_year_of (player_batting (People.playerid p) batting) y →
       c1 ∈ season_codes (People.playerid p) y batting teams →
       c2 ∈ season_codes (People.playerid p) y batting teams →
       c1 ≠ c2 →
       ∀ code' ids,
         only_team_players to_datetime_year code' people batting teams = Ok ids →
         People.playerid p ∉ ids).
Proof.
  intros Hp Hfinal.
  assert (∀ code',
    People.playerid p
      ∈ select_only_team code'
          (teams_per_player_year (latest_batting to_datetime_year people batting teams))
    ↔ ∃ y, max_year_of (player_batting (People.playerid p) batting) y
           ∧ ∀ c, c ∈ season_codes (People.playerid p) y batting teams ↔ c = Some code')
    as Hiff.
  { intros code'. rewrite elem_of_select_only_team. split.
    - intros (y & [Hne Hall]%unique_singleton).
      destruct (filter _ _) as [|m ms] eqn:Hf; [done|]. clear Hne.
      assert (m ∈ m :: ms) as Hm by by left.
      rewrite <-Hf in Hm. apply list_elem_of_filter in Hm as [[Hid Hmy] Hm].
      pose proof (latest_year_of_active people batting teams p m Hp Hfinal Hm Hid) as Hy.
      rewrite Hmy in Hy. exists y. split; [done|]. intros c.
      rewrite <-(latest_codes_of_active people batting teams p y c Hp Hfinal Hy), Hf.
      split; [apply Hall|]. intros ->. rewrite <-(Hall (Merged.franchid m)); by left.
    - intros (y & Hy & Hcodes). exists y. apply unique_singleton. split.
      + pose proof (proj2 (Hcodes (Some code')) eq_refl) as Hin.
        apply (latest_codes_of_active people batting teams p y _ Hp Hfinal Hy) in Hin.
        intros Hnil. rewrite Hnil in Hin. by apply elem_of_nil in Hin.
      + intros c Hc. apply Hcodes.
        by apply (latest_codes_of_active people batting teams p y c Hp Hfinal Hy). }
  assert (∀ code',
    (∃ ids, only_team_players to_datetime_year code' people batting teams = Ok ids
            ∧ People.playerid p ∈ ids)
    ↔ People.playerid p
        ∈ select_only_team code'
            (teams_per_player_year
               (latest_batting to_datetime_year people batting teams))) as Hres.
  { intros code'.
    destruct (only_team_players_cases code' people batting teams)
      as [[Hnil ->]|[_ ->]].
    - split; [by intros (ids & ? & _)|].
      intros (y & [Hne _]%unique_singleton)%elem_of_select_only_team.
      exfalso. apply Hne. unfold latest_batting. by rewrite Hnil.
    - split; [by intros (ids & [= <-] & ?)|]. intros ?. by eexists. }
  split; [by rewrite Hres|].
  intros y c1 c2 Hy Hc1 Hc2 Hne code' ids Hids Hin.
  assert (∃ ids, only_team_players to_datetime_year code' people batting teams = Ok ids
                 ∧ People.playerid p ∈ ids) as Hex by eauto.
  apply Hres, Hiff in Hex as (y' & Hy' & Hcodes).
  rewrite (max_year_of_unique _ _ _ Hy' Hy) in Hcodes.
  apply Hcodes in Hc1, Hc2. congruence.
Qed.

End roster_facts.

Example roster_example :
  only_team_players sample_to_datetime_year "NYY" roster_people roster_batting roster_teams
  = Ok ["a01"]
  ∧ only_team_players sample_to_datetime_year "BOS" roster_people roster_batting roster_teams
    = Ok []
  ∧ only_team_players sample_to_datetime_year "BOS" roster_people [] roster_teams
    = Raise KeyError.
Proof. by vm_compute. Qed.

Lemma roster_filter_exclusive_witness :
  ((∃ ids, only_team_players sample_to_datetime_year "NYY"
             roster_people roster_batting roster_teams = Ok ids
           ∧ "a01" ∈ ids)
   ↔ ∃ y, max_year_of (player_batting "a01" roster_batting) y
          ∧ ∀ c, c ∈ season_codes "a01" y roster_batting roster_teams ↔ c = Some "NYY")
  ∧ (∀ y c1 c2,
       max_year_of (player_batting "a01" roster_batting) y →
       c1 ∈ season_codes "a01" y roster_batting roster_teams →
       c2 ∈ season_codes "a01" y roster_batting roster_teams →
       c1 ≠ c2 →
       ∀ code' ids,
         only_team_players sample_to_datetime_year code'
           roster_people roster_batting roster_teams = Ok ids →
         "a01" ∉ ids).
Proof.
  apply (roster_filter_exclusive sample_to_datetime_year "NYY" roster_people
           roster_batting roster_teams (People.Row "a01" (Some "Al") (Some "Ace") None)).
  - by left.
  - reflexivity.
Defined.

(** C4 as stated fails: an active player whose latest season has one row
    that resolves to "BOS" and one row without a TeamSeason match has "BOS"
    as the only franchise code of that season, and is not in the result for
    "BOS". *)
Lemma roster_unresolved_row_counterexample :
  People.Row "a01" (Some "Al") (Some "Ace") None ∈ ex_people
  ∧ max_year_of (player_batting "a01" unresolved_batting) 2021
  ∧ (∀ c, c ∈ season_franchise_codes "a01" 2021 unresolved_batting roster_teams
          ↔ c = "BOS")
  ∧ only_team_players sample_to_datetime_year "BOS" ex_people unresolved_batting
      roster_teams = Ok [].
Proof.
  split; [by left|]. split; [|split; [|by vm_compute]].
  - split.
    + exists (Batting.Row "a01" 2021 "BOS"). split; [by left|done].
    + apply Forall_forall, (bool_decide_unpack _). vm_compute. exact I.
  - intros c. change (season_franchise_codes _ _ _ _) with ["BOS"].
    apply list_elem_of_singleton.
Qed.

(** The resolver has no case of its own for an empty or blank query: what
    it answers there is decided by the scorer alone. *)
Lemma blank_query_follows_scorer :
  get_franchise_code_from_input prefix_score " " = Ok None
  ∧ get_franchise_code_from_input (λ _ _, 100%Q) " "
    = Ok (Some ("ARI", "Arizona Diamondbacks")).
Proof. by vm_compute. Qed.

(** * Further properties of the extractor *)

Lemma get_player_team_blocks_ok `{SortValues} f l people batting teams :
  ∃ bs, get_player_team_blocks f l people batting teams = Ok bs.
Proof.
  rewrite get_player_team_blocks_eq.
  destruct (lookup_player_id f l people); [|by eexists].
  rewrite career_blocks_eq. by eexists.
Qed.

(** What a successful call returned, by the two ways it can end. *)
Lemma get_player_team_blocks_inv `{SortValues} f l people batting teams bs :
  get_player_team_blocks f l people batting teams = Ok bs →
  lookup_player_id f l people = None ∧ bs = []
  ∨ ∃ pid, lookup_player_id f l people = Some pid
           ∧ bs = blocks_of_rows
                    (sort_values (merge_left (player_batting pid batting) teams)).
Proof.
  rewrite get_player_team_blocks_eq.
  destruct (lookup_player_id f l people) as [pid|].
  - rewrite career_blocks_eq. intros [= <-]. right. by exists pid.
  - intros [= <-]. by left.
Qed.

Lemma scan_head t s y rows : ∃ e bs, scan t s y rows = (s, e, t) :: bs.
Proof.
  revert s y. induction rows as [|row rows IH]; intros s y; cbn; [by eexists _, _|].
  destruct (py_ne _ _); [by eexists _, _|apply IH].
Qed.

Lemma scan_length t s y rows :
  (1 ≤ length (scan t s y rows) ≤ S (length rows))%nat.
Proof.
  revert t s y. induction rows as [|row rows IH]; intros t s y; cbn; [lia|].
  destruct (py_ne _ _); cbn.
  - specialize (IH (Merged.franchid row) (Merged.yearid row) (Merged.yearid row)). lia.
  - specialize (IH t s (Merged.yearid row)). lia.
Qed.

Lemma scan_adjacent rows t s y (i : nat) b1 b2 :
  scan t s y rows !! i = Some b1 → scan t s y rows !! S i = Some b2 →
  end_year b1 + 1 = start_year b2 ∧ py_ne b2.2 (Some b1.2) = true.
Proof.
  revert t s y i. induction rows as [|row rows IH]; intros t s y i; cbn.
  { by destruct i. }
  destruct (py_ne (Merged.franchid row) (Some t)) eqn:Hne; [|apply IH].
  destruct i as [|i]; cbn; [|apply IH].
  destruct (scan_head (Merged.franchid row) (Merged.yearid row) (Merged.yearid row) rows)
    as (e & bs & ->).
  intros [= <-] [= <-]. cbn. split; [lia|done].
Qed.

Lemma scan_provenance rows t s y b :
  b ∈ scan t s y rows →
  start_year b = s ∧ b.2 = t
  ∨ ∃ m, m ∈ rows ∧ Merged.yearid m = start_year b ∧ Merged.franchid m = b.2.
Proof.
  revert t s y. induction rows as [|row rows IH]; intros t s y; cbn.
  { intros ->%list_elem_of_singleton. by left. }
  destruct (py_ne _ _).
  - intros [->|Hb]%elem_of_cons; [by left|]. right.
    apply IH in Hb as [[Hs Ht]|(m & Hm & Hmy & Hmt)].
    + exists row. split; [by left|done].
    + exists m. split; [by right|done].
  - intros [Hb|(m & Hm & Hmy & Hmt)]%IH; [by left|].
    right. exists m. split; [by right|done].
Qed.

(** X1.  For a player found in the records, the result has no block exactly
    when the player has no batting row, and never more blocks than the
    joined frame has rows. *)
Theorem blocks_empty_iff_no_rows `{SortValues} f l people batting teams pid :
  lookup_player_id f l people = Some pid →
  ∃ bs, get_player_team_blocks f l people batting teams = Ok bs
    ∧ (bs = [] ↔ player_batting pid batting = [])
    ∧ (length bs ≤ length (merge_left (player_batting pid batting) teams))%nat.
Proof.
  intros Hpid. rewrite get_player_team_blocks_eq, Hpid, career_blocks_eq.
  eexists. split; [done|].
  rewrite <-(sorted_frame_nil (player_batting pid batting) teams).
  rewrite <-(Permutation_length
               (sort_values_perm (merge_left (player_batting pid batting) teams))).
  destruct (sort_values _) as [|row rows]; [done|]. cbn [blocks_of_rows].
  pose proof (scan_length (Merged.franchid row) (Merged.yearid row)
                (Merged.yearid row) rows) as Hlen.
  split; [|cbn; lia]. split; [|done].
  intros Hnil. rewrite Hnil in Hlen. cbn in Hlen. lia.
Qed.

Lemma blocks_empty_iff_no_rows_witness :
  ∃ bs, @get_player_team_blocks stable_sort "Al" "Ace" ex_people ex_batting ex_teams = Ok bs
    ∧ (bs = [] ↔ player_batting "a01" ex_batting = [])
    ∧ (length bs ≤ length (merge_left (player_batting "a01" ex_batting) ex_teams))%nat.
Proof. apply (@blocks_empty_iff_no_rows stable_sort). reflexivity. Defined.

(** X2.  Two consecutive blocks of a result abut and differ: the earlier one
    ends in the year before the later one starts, and they do not carry the
    same franchise code. *)
Theorem consecutive_blocks_abut `{SortValues} f l people batting teams bs
    (i : nat) b1 b2 :
  get_player_team_blocks f l people batting teams = Ok bs →
  bs !! i = Some b1 → bs !! S i = Some b2 →
  end_year b1 + 1 = start_year b2 ∧ ∀ c, b1.2 = Some c → b2.2 ≠ Some c.
Proof.
  intros [[_ ->]|(pid & _ & ->)]%get_player_team_blocks_inv; [done|].
  destruct (sort_values _) as [|row rows]; [done|]. cbn [blocks_of_rows].
  intros H1 H2. destruct (scan_adjacent _ _ _ _ _ _ _ H1 H2) as [Habut Hne].
  split; [done|]. intros c Hc1 Hc2. rewrite Hc1, Hc2 in Hne. cbn in Hne.
  by rewrite bool_decide_eq_false_2 in Hne by tauto.
Qed.

Lemma consecutive_blocks_abut_witness :
  end_year (2018, 2019, Some "BOS") + 1 = start_year (2020, 2020, Some "NYY")
  ∧ ∀ c, (2018, 2019, Some "BOS").2 = Some c → (2020, 2020, Some "NYY").2 ≠ Some c.
Proof.
  apply (@consecutive_blocks_abut stable_sort "Al" "Ace" ex_people ex_batting ex_teams
           [(2018, 2019, Some "BOS"); (2020, 2020, Some "NYY")] 0%nat);
    reflexivity.
Defined.

(** X3.  No block is made up: each block starts in a year in which the
    player has a batting row, and carries a franchise cell that the join
    gives to that row. *)
Theorem block_start_has_row `{SortValues} f l people batting teams pid bs b :
  lookup_player_id f l people = Some pid →
  get_player_team_blocks f l people batting teams = Ok bs →
  b ∈ bs →
  ∃ r, r ∈ player_batting pid batting
       ∧ Batting.yearid r = start_year b
       ∧ b.2 ∈ Merged.franchid <$> join_row teams r.
Proof.
  intros Hpid [[Hnone _]|(pid' & Hpid' & ->)]%get_player_team_blocks_inv Hb;
    [congruence|].
  assert (pid' = pid) as -> by congruence.
  assert (∃ m, m ∈ sort_values (merge_left (player_batting pid batting) teams)
               ∧ Merged.yearid m = start_year b ∧ Merged.franchid m = b.2)
    as (m & Hm & Hmy & Hmt).
  { destruct (sort_values _) as [|row rows]; [by apply elem_of_nil in Hb|].
    cbn [blocks_of_rows] in Hb.
    apply scan_provenance in Hb as [[Hs Ht]|(m & Hm & Hmy & Hmt)].
    - exists row. split; [by left|done].
    - exists m. split; [by right|done]. }
  apply sorted_frame_elem, elem_of_merge_left in Hm as (r & Hr & Hm).
  exists r. split; [done|].
  destruct (join_row_keys _ _ _ Hm) as [_ <-]. split; [done|].
  apply list_elem_of_fmap. by exists m.
Qed.

Lemma block_start_has_row_witness :
  ∃ r, r ∈ player_batting "a01" ex_batting
       ∧ Batting.yearid r = start_year (2020, 2020, Some "NYY")
       ∧ (2020, 2020, Some "NYY").2 ∈ Merged.franchid <$> join_row ex_teams r.
Proof.
  apply (@block_start_has_row stable_sort "Al" "Ace" ex_people ex_batting ex_teams "a01"
           [(2018, 2019, Some "BOS"); (2020, 2020, Some "NYY")]).
  - reflexivity.
  - reflexivity.
  - apply (bool_decide_unpack _). vm_compute. exact I.
Defined.

Lemma py_ne_false team last_team : py_ne team (Some last_team) = false → team = last_team.
Proof.
  destruct team as [a|], last_team as [b|]; cbn; try done.
  intros Hne. apply bool_decide_eq_false in Hne. f_equal.
  by destruct (decide (a = b)).
Qed.

Lemma sorted_distinct_strict rows :
  StronglySorted year_le rows → NoDup (Merged.yearid <$> rows) →
  StronglySorted year_lt rows.
Proof.
  induction 1 as [|row rows Hs IH Hrow]; intros Hnd; [constructor|].
  cbn in Hnd. apply NoDup_cons in Hnd as [Hfresh Hnd].
  constructor; [by apply IH|].
  apply Forall_forall. intros r Hr. rewrite Forall_forall in Hrow.
  specialize (Hrow r Hr). unfold year_le, year_lt in *.
  assert (Merged.yearid row ≠ Merged.yearid r); [|lia].
  intros Heq. apply Hfresh. rewrite Heq. apply list_elem_of_fmap. by exists r.
Qed.

Lemma scan_rows_in_blocks rows :
  StronglySorted year_lt rows → ∀ t s y,
  s ≤ y → Forall (λ r, y < Merged.yearid r) rows →
  (∃ e bs, scan t s y rows = (s, e, t) :: bs ∧ y ≤ e)
  ∧ ∀ m, m ∈ rows →
      ∃ b, b ∈ scan t s y rows ∧ b.2 = Merged.franchid m
           ∧ in_block (Merged.yearid m) b.
Proof.
  induction 1 as [|row rows Hs IH Hrow]; intros t s y Hsy Hy; cbn.
  { split; [by eexists _, _|]. by intros m ?%elem_of_nil. }
  apply Forall_cons in Hy as [Hy _].
  destruct (py_ne (Merged.franchid row) (Some t)) eqn:Hne.
  - destruct (IH (Merged.franchid row) (Merged.yearid row) (Merged.yearid row))
      as [(e & bs & Hscan & He) Hin]; [lia|done|].
    split; [eexists _, _; split; [done|lia]|].
    intros m [->|Hm]%elem_of_cons.
    + exists (Merged.yearid row, e, Merged.franchid row).
      split; [rewrite Hscan; right; by left|]. split; [done|].
      unfold in_block. cbn. lia.
    + destruct (Hin m Hm) as (b & Hb & Hbt & Hby).
      exists b. split; [by right|done].
  - apply py_ne_false in Hne.
    destruct (IH t s (Merged.yearid row)) as [(e & bs & Hscan & He) Hin]; [lia|done|].
    split; [eexists _, _; split; [done|lia]|].
    intros m [->|Hm]%elem_of_cons; [|by apply Hin].
    exists (s, e, t). split; [rewrite Hscan; by left|]. split; [done|].
    unfold in_block. cbn. lia.
Qed.

(** X4.  When no two joined rows of the player share a year, every row lies
    in a block of its own franchise cell: the block's years include the
    row's year. *)
Theorem rows_lie_in_own_block `{SortValues} f l people batting teams pid :
  lookup_player_id f l people = Some pid →
  NoDup (Merged.yearid <$> merge_left (player_batting pid batting) teams) →
  ∃ bs, get_player_team_blocks f l people batting teams = Ok bs
    ∧ ∀ m, m ∈ merge_left (player_batting pid batting) teams →
        ∃ b, b ∈ bs ∧ b.2 = Merged.franchid m ∧ in_block (Merged.yearid m) b.
Proof.
  intros Hpid Hnd. rewrite get_player_team_blocks_eq, Hpid, career_blocks_eq.
  eexists. split; [done|]. intros m Hm. apply sorted_frame_elem in Hm.
  assert (StronglySorted year_lt
            (sort_values (merge_left (player_batting pid batting) teams))) as Hs.
  { apply sorted_distinct_strict.
    - apply Sorted_StronglySorted; [apply _|apply sort_values_sorted].
    - by rewrite sort_values_perm. }
  destruct (sort_values _) as [|row rows]; [by apply elem_of_nil in Hm|].
  apply StronglySorted_inv in Hs as [Hs Hrow]. cbn [blocks_of_rows].
  destruct (scan_rows_in_blocks rows Hs (Merged.franchid row) (Merged.yearid row)
              (Merged.yearid row)) as [(e & bs & Hscan & He) Hin]; [lia|done|].
  apply elem_of_cons in Hm as [->|Hm]; [|by apply Hin].
  eexists. split; [rewrite Hscan; by left|]. split; [done|].
  unfold in_block. cbn. lia.
Qed.

Lemma rows_lie_in_own_block_witness :
  ∃ bs, @get_player_team_blocks stable_sort "Al" "Ace" ex_people ex_batting ex_teams = Ok bs
    ∧ ∀ m, m ∈ merge_left (player_batting "a01" ex_batting) ex_teams →
        ∃ b, b ∈ bs ∧ b.2 = Merged.franchid m ∧ in_block (Merged.yearid m) b.
Proof.
  apply (@rows_lie_in_own_block stable_sort).
  - reflexivity.
  - apply (bool_decide_unpack _). vm_compute. exact I.
Defined.

(** With a mid-season trade the row of the first team lies in no block of
    that team, and which team comes first is up to the sort. *)
Example trade_depends_on_sort :
  @get_player_team_blocks stable_sort "Al" "Ace" ex_people trade_batting trade_teams
  = Ok [(2018, 2017, Some "BOS"); (2018, 2018, Some "NYY")]
  ∧ @get_player_team_blocks reverse_sort "Al" "Ace" ex_people trade_batting trade_teams
    = Ok [(2018, 2017, Some "NYY"); (2018, 2018, Some "BOS")].
Proof. by vm_compute. Qed.

Lemma scan_ext rows1 rows2 t s y :
  row_key <$> rows1 = row_key <$> rows2 → scan t s y rows1 = scan t s y rows2.
Proof.
  revert rows2 t s y. induction rows1 as [|r1 rows1 IH]; intros [|r2 rows2] t s y;
    cbn; try done.
  intros [= Hy Ht Hrows]. rewrite Hy, Ht. by rewrite !(IH rows2).
Qed.

Lemma blocks_of_rows_ext rows1 rows2 :
  row_key <$> rows1 = row_key <$> rows2 → blocks_of_rows rows1 = blocks_of_rows rows2.
Proof.
  destruct rows1 as [|r1 rows1], rows2 as [|r2 rows2]; cbn; try done.
  intros [= Hy Ht Hrows]. rewrite Hy, Ht. by apply scan_ext.
Qed.

(** X5.  When the joined rows of the player that share a year also share the
    franchise cell, the result is the same for every way [sort_values] may
    order the rows of one year. *)
Theorem blocks_sort_independent (S1 S2 : SortValues) f l people batting teams :
  (∀ pid m1 m2,
     lookup_player_id f l people = Some pid →
     m1 ∈ merge_left (player_batting pid batting) teams →
     m2 ∈ merge_left (player_batting pid batting) teams →
     Merged.yearid m1 = Merged.yearid m2 → Merged.franchid m1 = Merged.franchid m2) →
  @get_player_team_blocks S1 f l people batting teams
  = @get_player_team_blocks S2 f l people batting teams.
Proof.
  intros Hsame. rewrite !get_player_team_blocks_eq.
  destruct (lookup_player_id f l people) as [pid|] eqn:Hpid; [|done].
  rewrite !career_blocks_eq. f_equal. apply blocks_of_rows_ext.
  set (M := merge_left (player_batting pid batting) teams).
  assert (∀ S : SortValues,
            StronglySorted (λ p q : Z * cell, p.1 ≤ q.1) (row_key <$> @sort_values S M))
    as Hsorted.
  { intros S. apply (StronglySorted_fmap row_key year_le); [by intros ?? ?|].
    apply Sorted_StronglySorted; [apply _|apply sort_values_sorted]. }
  apply (StronglySorted_unique_strong (λ p q : Z * cell, p.1 ≤ q.1)); [|auto..|].
  - intros p q (m1 & -> & Hm1)%list_elem_of_fmap (m2 & -> & Hm2)%list_elem_of_fmap.
    cbn. intros H12 H21.
    rewrite (@sort_values_perm S1) in Hm1. rewrite (@sort_values_perm S2) in Hm2.
    unfold row_key. rewrite (Hsame pid m1 m2 eq_refl Hm1 Hm2) by lia. f_equal. lia.
  - by rewrite (@sort_values_perm S1), (@sort_values_perm S2).
Qed.

Lemma blocks_sort_independent_witness :
  @get_player_team_blocks stable_sort "Al" "Ace" ex_people tie_batting tie_teams
  = @get_player_team_blocks reverse_sort "Al" "Ace" ex_people tie_batting tie_teams
  ∧ @sort_values stable_sort (merge_left (player_batting "a01" tie_batting) tie_teams)
    ≠ @sort_values reverse_sort (merge_left (player_batting "a01" tie_batting) tie_teams).
Proof.
  split; [|intros Heq; vm_compute in Heq; discriminate Heq].
  apply blocks_sort_independent.
  intros pid m1 m2 [= <-] Hm1 Hm2.
  assert (Forall (λ m1, Forall (λ m2,
            Merged.yearid m1 = Merged.yearid m2 → Merged.franchid m1 = Merged.franchid m2)
            (merge_left (player_batting "a01" tie_batting) tie_teams))
            (merge_left (player_batting "a01" tie_batting) tie_teams)) as Hall.
  { apply (bool_decide_unpack _). vm_compute. exact I. }
  rewrite Forall_forall in Hall. specialize (Hall m1 Hm1).
  rewrite Forall_forall in Hall. exact (Hall m2 Hm2).
Defined.

(** * Further properties of the left merge *)

Lemma merge_left_cons b left right :
  merge_left (b :: left) right = join_row right b ++ merge_left left right.
Proof. done. Qed.

Lemma join_row_length teams b : (1 ≤ length (join_row teams b))%nat.
Proof.
  unfold join_row. destruct (filter _ teams) as [|t ts]; cbn; lia.
Qed.

Lemma filter_unique_key (teams : list Teams.row) tid y :
  NoDup (team_key <$> teams) →
  (length (filter (λ t, Teams.teamid t = tid ∧ Teams.yearid t = y) teams) ≤ 1)%nat.
Proof.
  induction teams as [|t teams IH]; [cbn; lia|].
  rewrite fmap_cons. intros [Hfresh Hnd]%NoDup_cons.
  destruct (decide (Teams.teamid t = tid ∧ Teams.yearid t = y)) as [[Ht Hy]|Hno].
  - rewrite filter_cons_True by done. cbn.
    replace (filter _ teams) with (@nil Teams.row); [done|].
    symmetry. apply filter_nil_forall. intros t' Ht' [Ht'1 Ht'2].
    apply Hfresh. apply list_elem_of_fmap. exists t'. split; [|done].
    unfold team_key. congruence.
  - rewrite filter_cons_False by done. by apply IH.
Qed.

Lemma join_row_unique_key teams b :
  NoDup (team_key <$> teams) → batting_part <$> join_row teams b = [b].
Proof.
  intros Hlen%(filter_unique_key teams (Batting.teamid b) (Batting.yearid b)).
  unfold join_row. destruct (filter _ teams) as [|t [|t' ts]]; cbn in *; [| |lia];
    by destruct b.
Qed.

(** The merged frame is no shorter than the batting frame, and when the
    teams frame has at most one row per (team id, year) its batting columns
    are the batting frame, row for row. *)
Lemma merge_left_keeps_rows left right :
  (length left ≤ length (merge_left left right))%nat
  ∧ (NoDup (team_key <$> right) → batting_part <$> merge_left left right = left).
Proof.
  split.
  - induction left as [|b left IH]; [done|].
    rewrite merge_left_cons, length_app. cbn.
    pose proof (join_row_length right b). lia.
  - intros Hnd. induction left as [|b left IH]; [done|].
    by rewrite merge_left_cons, fmap_app, join_row_unique_key, IH.
Qed.

(** * The timeline renderer *)

Lemma add_block_data name fig b :
  ∃ t, fig_data (add_block name fig b) = fig_data fig ++ [t]
       ∧ seen_legends (add_block name fig b) = {[ bar_name t ]} ∪ seen_legends fig
       ∧ bar_geometry t = block_geometry name b
       ∧ bar_name t = legend_label_of (bar_text t)
       ∧ bar_color t = team_color (bar_text t)
       ∧ bar_showlegend t = bool_decide (bar_name t ∉ seen_legends fig).
Proof. destruct b as [[s e] team]. by eexists. Qed.

Lemma add_block_legend_ok name fig b : legend_ok fig → legend_ok (add_block name fig b).
Proof.
  intros [Hseen Hshow]. unfold legend_ok.
  destruct (add_block_data name fig b) as (t & -> & -> & _ & _ & _ & Ht).
  split.
  - intros lbl. rewrite fmap_app, elem_of_app, elem_of_union, elem_of_singleton, Hseen.
    cbn. rewrite list_elem_of_singleton. tauto.
  - intros i t' [[Hi Ht']|[-> ->]]%lookup_snoc_Some.
    + rewrite take_app_le by lia. by apply Hshow.
    + rewrite take_app_length, Ht, bool_decide_eq_true. by rewrite Hseen.
Qed.

Lemma add_blocks_spec name blocks fig :
  legend_ok fig →
  legend_ok (foldl (add_block name) fig blocks)
  ∧ bar_geometry <$> fig_data (foldl (add_block name) fig blocks)
    = (bar_geometry <$> fig_data fig) ++ (block_geometry name <$> blocks)
  ∧ (Forall (λ t, bar_name t = legend_label_of (bar_text t)
                  ∧ bar_color t = team_color (bar_text t)) (fig_data fig) →
     Forall (λ t, bar_name t = legend_label_of (bar_text t)
                  ∧ bar_color t = team_color (bar_text t))
            (fig_data (foldl (add_block name) fig blocks))).
Proof.
  revert fig. induction blocks as [|b blocks IH]; intros fig Hok; cbn [foldl].
  { split; [done|]. split; [by rewrite app_nil_r|done]. }
  destruct (IH (add_block name fig b) (add_block_legend_ok name fig b Hok))
    as (Hok' & Hgeo & Hlab).
  split; [done|].
  destruct (add_block_data name fig b) as (t & Hdata & _ & Ht & Hname & Hcolor & _).
  split.
  - rewrite Hgeo, Hdata, fmap_app, <-(assoc_L (++)). cbn. by rewrite Ht.
  - intros Hall. apply Hlab. rewrite Hdata. apply Forall_app. split; [done|].
    by constructor.
Qed.

Section renderer_facts.
Context `{SortValues}.
Context (people : list People.row) (batting : list Batting.row) (teams : list Teams.row).

Lemma plot_loop player_list fig :
  legend_ok fig →
  ∃ fig',
    foldl (add_player people batting teams) (Ok fig) player_list = Ok fig'
    ∧ legend_ok fig'
    ∧ bar_geometry <$> fig_data fig'
      = (bar_geometry <$> fig_data fig)
        ++ (player_list ≫= λ pl, block_geometry (pl.1 +:+ " " +:+ pl.2)
                                    <$> blocks_of_player people batting teams pl)
    ∧ (Forall (λ t, bar_name t = legend_label_of (bar_text t)
                    ∧ bar_color t = team_color (bar_text t)) (fig_data fig) →
       Forall (λ t, bar_name t = legend_label_of (bar_text t)
                    ∧ bar_color t = team_color (bar_text t)) (fig_data fig')).
Proof.
  revert fig. induction player_list as [|pl player_list IH]; intros fig Hok.
  { exists fig. split; [done|]. split; [done|]. split; [|done].
    by rewrite app_nil_r. }
  cbn [foldl]. unfold add_player at 2, blocks_of_player. cbn [result_bind].
  rewrite bind_cons.
  destruct (get_player_team_blocks_ok pl.1 pl.2 people batting teams) as [bs Hbs].
  rewrite Hbs. cbn [result_bind].
  destruct (add_blocks_spec (pl.1 +:+ " " +:+ pl.2) bs fig Hok) as (Hok' & Hgeo & Hlab).
  destruct (IH _ Hok') as (fig' & Hfig' & Hok'' & Hgeo' & Hlab').
  exists fig'. split; [done|]. split; [done|]. split; [|by auto].
  by rewrite Hgeo', Hgeo, <-(assoc_L (++)).
Qed.

Lemma legend_ok_empty : legend_ok (Figure [] ∅).
Proof.
  split.
  - intros lbl. cbn. rewrite elem_of_nil. set_solver.
  - by intros i t ?.
Qed.

(** X7.  The renderer never raises and draws one bar per block, in the order
    of the player list and of each player's blocks: the bar is on the
    player's row, starts at the block's first year, is as wide as the block
    has years, and carries the block's franchise as text. *)
Theorem plot_one_bar_per_block player_list :
  ∃ traces,
    plot_multiple_timelines_plotly player_list people batting teams
    = Ok (traces, 800 `max` (Z.of_nat (length player_list) * 40))
    ∧ bar_geometry <$> traces
      = player_list ≫= λ pl, block_geometry (pl.1 +:+ " " +:+ pl.2)
                               <$> blocks_of_player people batting teams pl.
Proof.
  unfold plot_multiple_timelines_plotly.
  destruct (plot_loop player_list _ legend_ok_empty) as (fig & -> & _ & Hgeo & _).
  exists (fig_data fig). split; [done|]. by rewrite Hgeo.
Qed.

(** X8.  A trace shows its legend entry exactly when no earlier trace of the
    figure has the same label, and the label and the colour of a trace are
    those of its franchise: each franchise drawn has one legend entry. *)
Theorem plot_legend_once player_list traces height (i : nat) t :
  plot_multiple_timelines_plotly player_list people batting teams
  = Ok (traces, height) →
  traces !! i = Some t →
  (bar_showlegend t = true ↔ bar_name t ∉ bar_name <$> take i traces)
  ∧ bar_name t = legend_label_of (bar_text t)
  ∧ bar_color t = team_color (bar_text t).
Proof.
  unfold plot_multiple_timelines_plotly.
  destruct (plot_loop player_list _ legend_ok_empty) as (fig & -> & [_ Hshow] & _ & Hlab).
  cbn. intros [= <- _] Ht. split; [by apply Hshow|].
  specialize (Hlab (Forall_nil_2 _)). rewrite Forall_forall in Hlab.
  apply Hlab. by eapply list_elem_of_lookup_2.
Qed.

End renderer_facts.

Lemma plot_legend_once_witness :
  ∃ traces t,
    traces !! 2%nat = Some t
    ∧ (bar_showlegend t = true ↔ bar_name t ∉ bar_name <$> take 2 traces)
    ∧ bar_name t = legend_label_of (bar_text t)
    ∧ bar_color t = team_color (bar_text t).
Proof.
  eexists _, _. split.
  2:{ eapply (@plot_legend_once stable_sort ex_people ex_batting ex_teams
                [("Al", "Ace"); ("Al", "Ace")] _ _ 2%nat).
      - vm_compute. reflexivity.
      - reflexivity. }
  reflexivity.
Defined.

(** ** Bar widths *)

Lemma tiles_width lo hi bs b :
  tiles lo hi bs → b ∈ bs → start_year b ≤ end_year b + 1.
Proof.
  induction 1 as [s e t Hse|s e t hi bs Hse Hbs IH].
  - intros ->%list_elem_of_singleton. cbn. lia.
  - intros [->|Hb]%elem_of_cons; [done|by apply IH].
Qed.

Lemma tiles_total_width lo hi bs : tiles lo hi bs → total_width bs = hi - lo + 1.
Proof.
  induction 1 as [s e t Hse|s e t hi bs Hse Hbs IH]; cbn.
  - lia.
  - unfold total_width in IH. rewrite IH. lia.
Qed.

Lemma min_year_of_unique rows y1 y2 :
  min_year_of rows y1 → min_year_of rows y2 → y1 = y2.
Proof.
  intros [(r1 & Hr1 & <-) H1] [(r2 & Hr2 & <-) H2].
  apply H2 in Hr1. apply H1 in Hr2. lia.
Qed.

Lemma blocks_width_nonneg `{SortValues} f l people batting teams bs b :
  get_player_team_blocks f l people batting teams = Ok bs →
  b ∈ bs → 0 ≤ end_year b - start_year b + 1.
Proof.
  intros [[_ ->]|(pid & _ & ->)]%get_player_team_blocks_inv Hb.
  { by apply elem_of_nil in Hb. }
  pose proof (sort_values_sorted (merge_left (player_batting pid batting) teams)) as Hs.
  destruct (sort_values _) as [|row rows]; [by apply elem_of_nil in Hb|].
  apply blocks_of_rows_tiles in Hs. pose proof (tiles_width _ _ _ _ Hs Hb). lia.
Qed.

(** X9.  The bars of one player never have a negative width (a block closed
    in the year it was opened has width 0), and their widths add up to the
    number of years from the player's first to last season. *)
Theorem bars_fill_career_span `{SortValues} f l people batting teams pid ymin ymax :
  lookup_player_id f l people = Some pid →
  min_year_of (player_batting pid batting) ymin →
  max_year_of (player_batting pid batting) ymax →
  ∃ bs, get_player_team_blocks f l people batting teams = Ok bs
    ∧ (∀ b, b ∈ bs → 0 ≤ end_year b - start_year b + 1)
    ∧ total_width bs = ymax - ymin + 1.
Proof.
  intros Hpid Hmin Hmax.
  destruct (get_player_team_blocks_ok f l people batting teams) as [bs Hbs].
  exists bs. split; [done|]. split; [intros b; by eapply blocks_width_nonneg|].
  rewrite get_player_team_blocks_eq, Hpid, career_blocks_eq in Hbs.
  injection Hbs as <-.
  pose proof (sort_values_sorted (merge_left (player_batting pid batting) teams)) as Hs.
  destruct (sort_values _) as [|row rows] eqn:Hsorted.
  { apply sorted_frame_nil in Hsorted. destruct Hmin as [(r & Hr & _) _].
    rewrite Hsorted in Hr. by apply elem_of_nil in Hr. }
  destruct (sorted_frame_span _ _ _ _ Hsorted) as [Hmin' Hmax'].
  rewrite (min_year_of_unique _ _ _ Hmin Hmin'), (max_year_of_unique _ _ _ Hmax Hmax').
  by apply tiles_total_width, blocks_of_rows_tiles.
Qed.

Lemma bars_fill_career_span_witness :
  ∃ bs, @get_player_team_blocks stable_sort "Al" "Ace" ex_people gap_batting gap_teams = Ok bs
    ∧ (∀ b, b ∈ bs → 0 ≤ end_year b - start_year b + 1)
    ∧ total_width bs = 2020 - 2018 + 1.
Proof.
  apply (@bars_fill_career_span stable_sort "Al" "Ace" ex_people gap_batting gap_teams "a01").
  - reflexivity.
  - split.
    + exists (Batting.Row "a01" 2018 "BOS"). split; [by left|reflexivity].
    + apply Forall_forall, (bool_decide_unpack _). vm_compute. exact I.
  - split.
    + exists (Batting.Row "a01" 2020 "BOS"). split; [by right; left|reflexivity].
    + apply Forall_forall, (bool_decide_unpack _). vm_compute. exact I.
Defined.

(** X10.  No bar of a figure has a negative width. *)
Theorem plot_widths_nonneg `{SortValues} player_list people batting teams
    traces height t :
  plot_multiple_timelines_plotly player_list people batting teams
  = Ok (traces, height) →
  t ∈ traces → 0 ≤ bar_x t.
Proof.
  unfold plot_multiple_timelines_plotly.
  destruct (plot_loop people batting teams player_list _ legend_ok_empty)
    as (fig & -> & _ & Hgeo & _).
  cbn. intros [= <- _] Ht.
  assert (bar_geometry t ∈ bar_geometry <$> fig_data fig) as Hg.
  { apply list_elem_of_fmap. by exists t. }
  rewrite Hgeo in Hg. cbn in Hg.
  apply list_elem_of_bind in Hg as (pl & Hg & _).
  apply list_elem_of_fmap in Hg as (b & Hg & Hb).
  injection Hg as _ _ -> _.
  unfold blocks_of_player in Hb.
  destruct (get_player_team_blocks _ _ _ _ _) as [bs|e] eqn:Hbs.
  - by eapply blocks_width_nonneg.
  - by apply elem_of_nil in Hb.
Qed.

Lemma plot_widths_nonneg_witness :
  ∃ t, 0 ≤ bar_x t ∧ bar_y t = "Al Ace" ∧ bar_base t = 2018.
Proof.
  eexists. split.
  - eapply (@plot_widths_nonneg stable_sort [("Al", "Ace")] ex_people trade_batting
              trade_teams).
    + vm_compute. reflexivity.
    + by left.
  - split; reflexivity.
Defined.

(** * Further properties of the roster filter *)

Lemma NoDup_unique `{EqDecision A} (l : list A) : NoDup (unique l).
Proof.
  induction l as [|a l IH]; cbn; [constructor|].
  apply NoDup_cons. split; [|by apply NoDup_filter].
  rewrite list_elem_of_filter. by intros [? _].
Qed.

Section roster_more.
Context (to_datetime_year : string → option Z).
Implicit Types (people : list People.row) (batting : list Batting.row).
Implicit Types (teams : list Teams.row).

(** A record added for an id that is active already changes nothing. *)
Lemma active_batting_add people batting pid :
  active_id to_datetime_year people pid →
  active_batting to_datetime_year (People.Row pid None None None :: people) batting
  = active_batting to_datetime_year people batting.
Proof.
  intros (p & Hp & Hid & Hact). unfold active_batting. apply list_filter_iff.
  intros b. unfold active_players_df. rewrite filter_cons_True by done.
  rewrite fmap_cons, elem_of_cons. split; [|tauto].
  intros [->|Hb]; [|done]. cbn. apply list_elem_of_fmap. exists p. split; [done|].
  by apply list_elem_of_filter.
Qed.

Lemma latest_batting_active_id people batting teams m :
  m ∈ latest_batting to_datetime_year people batting teams →
  active_id to_datetime_year people (Merged.playerid m)
  ∧ (Merged.playerid m, Merged.yearid m)
      ∈ latest_years (active_batting to_datetime_year people batting).
Proof.
  unfold latest_batting. intros (b & Hb & Hm)%elem_of_merge_left.
  destruct (join_row_keys _ _ _ Hm) as [-> ->].
  apply elem_of_merge_inner in Hb as [Hb Hlatest]. split; [|done].
  apply elem_of_active_batting in Hb as [_ (p & Hp & Hact & Hid)]. by exists p.
Qed.

Lemma roster_iff_active_id code people batting teams pid :
  active_id to_datetime_year people pid →
  pid ∈ select_only_team code
          (teams_per_player_year (latest_batting to_datetime_year people batting teams))
  ↔ ∃ y, max_year_of (player_batting pid batting) y
         ∧ ∀ c, c ∈ season_codes pid y batting teams ↔ c = Some code.
Proof.
  intros Hactive.
  set (p0 := People.Row pid None None None).
  set (people0 := p0 :: people).
  assert (latest_batting to_datetime_year people batting teams
          = latest_batting to_datetime_year people0 batting teams) as ->.
  { unfold latest_batting, people0, p0. by rewrite active_batting_add. }
  assert (p0 ∈ people0) as Hp by by left.
  assert (People.finalgame p0 = None) as Hfinal by done.
  change pid with (People.playerid p0).
  rewrite elem_of_select_only_team. split.
  - intros (y & [Hne Hall]%unique_singleton).
    destruct (filter _ _) as [|m ms] eqn:Hf; [done|]. clear Hne.
    assert (m ∈ m :: ms) as Hm by by left.
    rewrite <-Hf in Hm. apply list_elem_of_filter in Hm as [[Hid Hmy] Hm].
    pose proof (latest_year_of_active to_datetime_year people0 batting teams p0 m
                  Hp Hfinal Hm Hid) as Hy.
    rewrite Hmy in Hy. exists y. split; [done|]. intros c.
    rewrite <-(latest_codes_of_active to_datetime_year people0 batting teams p0 y c
                 Hp Hfinal Hy), Hf.
    split; [apply Hall|]. intros ->. rewrite <-(Hall (Merged.franchid m)); by left.
  - intros (y & Hy & Hcodes). exists y. apply unique_singleton. split.
    + pose proof (proj2 (Hcodes (Some code)) eq_refl) as Hin.
      apply (latest_codes_of_active to_datetime_year people0 batting teams p0 y _
               Hp Hfinal Hy) in Hin.
      intros Hnil. rewrite Hnil in Hin. by apply elem_of_nil in Hin.
    + intros c Hc. apply Hcodes.
      by apply (latest_codes_of_active to_datetime_year people0 batting teams p0 y c
                  Hp Hfinal Hy).
Qed.

Lemma select_only_team_active code people batting teams pid :
  pid ∈ select_only_team code
          (teams_per_player_year (latest_batting to_datetime_year people batting teams)) →
  active_id to_datetime_year people pid.
Proof.
  intros (y & [Hne _]%unique_singleton)%elem_of_select_only_team.
  destruct (filter _ _) as [|m ms] eqn:Hf; [done|].
  assert (m ∈ m :: ms) as Hm by by left.
  rewrite <-Hf in Hm. apply list_elem_of_filter in Hm as [[<- _] Hm].
  by apply latest_batting_active_id in Hm as [? _].
Qed.

(** No batting row belongs to an active player. *)
Lemma active_batting_nil people batting :
  active_batting to_datetime_year people batting = []
  ↔ ∀ b, b ∈ batting → ¬ active_id to_datetime_year people (Batting.playerid b).
Proof.
  split.
  - intros Hnil b Hb (p & Hp & Hid & Hact).
    assert (b ∈ active_batting to_datetime_year people batting) as Hin.
    { apply elem_of_active_batting. split; [done|]. by exists p. }
    rewrite Hnil in Hin. by apply elem_of_nil in Hin.
  - intros Hno. destruct (active_batting _ _ _) as [|b bs] eqn:Hab; [done|].
    assert (b ∈ active_batting to_datetime_year people batting) as Hin
      by (rewrite Hab; by left).
    apply elem_of_active_batting in Hin as [Hb (p & Hp & Hact & Hid)].
    destruct (Hno b Hb). by exists p.
Qed.

(** X11.  The roster filter raises [KeyError] exactly when no batting row
    belongs to a record that counts as active (final game missing, or
    recorded but not a date), and otherwise returns exactly the ids of such
    records whose most recent season has the target code as its only
    franchise cell. *)
Theorem roster_result_exactly code people batting teams :
  (only_team_players to_datetime_year code people batting teams = Raise KeyError
   ↔ ∀ b, b ∈ batting → ¬ active_id to_datetime_year people (Batting.playerid b))
  ∧ ((∃ ids, only_team_players to_datetime_year code people batting teams = Ok ids)
     ↔ ∃ b, b ∈ batting ∧ active_id to_datetime_year people (Batting.playerid b))
  ∧ ∀ ids pid,
      only_team_players to_datetime_year code people batting teams = Ok ids →
      (pid ∈ ids
       ↔ active_id to_datetime_year people pid
         ∧ ∃ y, max_year_of (player_batting pid batting) y
                ∧ ∀ c, c ∈ season_codes pid y batting teams ↔ c = Some code).
Proof.
  pose proof (active_batting_nil people batting) as Hnil.
  destruct (only_team_players_cases to_datetime_year code people batting teams)
    as [[Hab ->]|[Hab ->]].
  - split; [split; [intros _; by apply Hnil|done]|].
    split; [|done]. split; [by intros [? ?]|].
    intros (b & Hb & Hact). by destruct (proj1 Hnil Hab b Hb).
  - split; [split; [done|intros Hno; by apply Hnil in Hno]|].
    split.
    + split; [|by eexists]. intros _.
      destruct (active_batting _ _ _) as [|b bs] eqn:Hb; [done|].
      assert (b ∈ active_batting to_datetime_year people batting) as Hin
        by (rewrite Hb; by left).
      apply elem_of_active_batting in Hin as [? (p & ? & ? & ?)].
      exists b. split; [done|]. by exists p.
    + intros ids pid [= <-]. split.
      * intros Hpid. pose proof (select_only_team_active _ _ _ _ _ Hpid) as Hactive.
        split; [done|].
        by apply (roster_iff_active_id code people batting teams pid Hactive).
      * intros [Hactive Hcodes].
        by apply (roster_iff_active_id code people batting teams pid Hactive).
Qed.

Lemma select_only_team_NoDup code people batting teams :
  NoDup (select_only_team code
           (teams_per_player_year
              (latest_batting to_datetime_year people batting teams))).
Proof.
  unfold select_only_team, teams_per_player_year.
  set (lb := latest_batting to_datetime_year people batting teams).
  set (keys := merge_sort key_le
                 (unique ((λ m, (Merged.playerid m, Merged.yearid m)) <$> lb))).
  assert (NoDup keys) as Hkeys.
  { unfold keys. rewrite merge_sort_Permutation. apply NoDup_unique. }
  assert (∀ k1 k2, k1 ∈ keys → k2 ∈ keys → k1.1 = k2.1 → k1 = k2) as Hinj.
  { assert (∀ k, k ∈ keys →
              max_year_of (filter (λ b, Batting.playerid b = k.1)
                             (active_batting to_datetime_year people batting)) k.2)
      as Hmax.
    { intros k Hk. unfold keys in Hk.
      rewrite merge_sort_Permutation, elem_of_unique in Hk.
      apply list_elem_of_fmap in Hk as (m & -> & Hm).
      apply latest_batting_active_id in Hm as [_ Hm].
      by apply elem_of_latest_years in Hm. }
    intros [pid1 y1] [pid2 y2] H1%Hmax H2%Hmax. cbn in *. intros ->.
    by rewrite (max_year_of_unique _ _ _ H1 H2). }
  apply NoDup_fmap_2_strong.
  - intros g1 g2 [_ (k1 & -> & Hk1)%list_elem_of_fmap]%list_elem_of_filter
             [_ (k2 & -> & Hk2)%list_elem_of_fmap]%list_elem_of_filter.
    cbn. intros Hid. by rewrite (Hinj k1 k2 Hk1 Hk2 Hid).
  - apply NoDup_filter. apply NoDup_fmap_2_strong; [|done].
    by intros k1 k2 _ _ [= ->].
Qed.

(** X12.  A result of the roster filter holds no player id twice. *)
Theorem roster_no_duplicates code people batting teams ids :
  only_team_players to_datetime_year code people batting teams = Ok ids →
  NoDup ids.
Proof.
  destruct (only_team_players_cases to_datetime_year code people batting teams)
    as [[_ ->]|[_ ->]]; [done|].
  intros [= <-]. apply select_only_team_NoDup.
Qed.

End roster_more.

Lemma roster_result_exactly_witness :
  "a01" ∈ ["a01"]
  ↔ active_id sample_to_datetime_year coerced_people "a01"
    ∧ ∃ y, max_year_of (player_batting "a01" roster_batting) y
           ∧ ∀ c, c ∈ season_codes "a01" y roster_batting roster_teams ↔ c = Some "NYY".
Proof.
  apply (proj2 (proj2 (roster_result_exactly sample_to_datetime_year "NYY"
                         coerced_people roster_batting roster_teams))).
  reflexivity.
Defined.

Lemma roster_no_duplicates_witness : NoDup ["a01"].
Proof.
  apply (roster_no_duplicates sample_to_datetime_year "NYY" coerced_people
           roster_batting roster_teams).
  reflexivity.
Defined.


(** * Further properties of the resolver and the page *)

Lemma TEAM_NAMES_inverse name code :
  (name, code) ∈ OFFICIAL_TEAM_NAMES → TEAM_NAMES !! code = Some name.
Proof.
  revert name code.
  assert (Forall (λ kv, TEAM_NAMES !! kv.2 = Some kv.1) OFFICIAL_TEAM_NAMES) as Hall.
  { apply (bool_decide_unpack _). by vm_compute. }
  rewrite Forall_forall in Hall. intros name code Hin. apply (Hall _ Hin).
Qed.

Section page_facts.
Context (WRatio : string → string → Q).

(** The two ways the resolver ends, by the best-scoring name. *)
Lemma resolver_cases query :
  ∃ best code,
    (best, code) ∈ OFFICIAL_TEAM_NAMES
    ∧ (∀ c, c ∈ dict_keys OFFICIAL_TEAM_NAMES → (WRatio query c <= WRatio query best)%Q)
    ∧ get_franchise_code_from_input WRatio query
      = if Qle_bool 70 (WRatio query best) then Ok (Some (code, best)) else Ok None.
Proof.
  unfold get_franchise_code_from_input.
  destruct (extractOne_best WRatio query "Arizona Diamondbacks"
              (tail (dict_keys OFFICIAL_TEAM_NAMES))) as (best & Hbest & Hin & Hmax).
  change ("Arizona Diamondbacks" :: tail (dict_keys OFFICIAL_TEAM_NAMES))
    with (dict_keys OFFICIAL_TEAM_NAMES) in *.
  destruct (dict_getitem_key _ _ Hin) as (code & Hcode & Hitem).
  exists best, code. by rewrite Hbest, Hcode.
Qed.

Lemma resolver_None_iff query :
  get_franchise_code_from_input WRatio query = Ok None
  ↔ ∀ name, name ∈ dict_keys OFFICIAL_TEAM_NAMES → (WRatio query name < 70)%Q.
Proof.
  destruct (resolver_cases query) as (best & code & Hitem & Hmax & ->).
  assert (best ∈ dict_keys OFFICIAL_TEAM_NAMES) as Hbest.
  { apply list_elem_of_fmap. by exists (best, code). }
  destruct (Qle_bool 70 (WRatio query best)) eqn:Hle.
  - apply Qle_bool_iff in Hle. split; [done|].
    intros Hall. specialize (Hall best Hbest). by apply Qlt_not_le in Hall.
  - split; [|done]. intros _ name Hname.
    eapply Qle_lt_trans; [by apply Hmax|].
    apply Qnot_le_lt. by rewrite <-Qle_bool_iff, Hle.
Qed.

(** X13.  An answer of the resolver is an entry of the directory whose name
    scores at least 70 and no less than any other name, and the display
    name the renderer shows for the returned code is the matched name. *)
Theorem resolver_answer_sound query code name :
  get_franchise_code_from_input WRatio query = Ok (Some (code, name)) →
  (name, code) ∈ OFFICIAL_TEAM_NAMES
  ∧ (70 <= WRatio query name)%Q
  ∧ (∀ name', name' ∈ dict_keys OFFICIAL_TEAM_NAMES →
              (WRatio query name' <= WRatio query name)%Q)
  ∧ team_full_name (Some code) = name.
Proof.
  destruct (resolver_cases query) as (best & code' & Hitem & Hmax & ->).
  destruct (Qle_bool 70 (WRatio query best)) eqn:Hle; [|done].
  intros [= <- <-]. apply Qle_bool_iff in Hle.
  repeat split; [done..|].
  unfold team_full_name.
  change (Some code' ≫= (TEAM_NAMES !!.)) with (TEAM_NAMES !! code').
  by rewrite (TEAM_NAMES_inverse _ _ Hitem).
Qed.

(** With names in hand the page is the warning or the chart. *)
Lemma page_of_names `{SortValues} people batting teams success warning names :
  ∃ pg,
    (if decide (length names = 0%nat) then Ok (NoPlayers success warning)
     else result_bind (plot_multiple_timelines_plotly names people batting teams)
            (λ fig, Ok (Chart success fig.1 fig.2))) = Ok pg
    ∧ pg ≠ Idle ∧ ∀ msg, pg ≠ NoMatch msg.
Proof.
  destruct (decide (length names = 0%nat)); [by eexists|].
  unfold plot_multiple_timelines_plotly.
  destruct (plot_loop people batting teams names _ legend_ok_empty) as (fig & -> & _).
  by eexists.
Qed.

(** X14.  The page stays idle exactly for the empty input and shows the
    no-match error exactly for a non-empty input that scores below 70
    against every directory name.  It raises [KeyError] exactly when a
    non-empty input is matched and no batting row belongs to a record that
    counts as active, and it raises nothing else. *)
Theorem main_page `{SortValues} to_datetime_year input people batting teams :
  (main WRatio to_datetime_year input people batting teams = Ok Idle
   ↔ input = EmptyString)
  ∧ ((∃ msg, main WRatio to_datetime_year input people batting teams = Ok (NoMatch msg))
     ↔ input ≠ EmptyString
       ∧ ∀ name, name ∈ dict_keys OFFICIAL_TEAM_NAMES → (WRatio input name < 70)%Q)
  ∧ (main WRatio to_datetime_year input people batting teams = Raise KeyError
     ↔ input ≠ EmptyString
       ∧ (∃ name, name ∈ dict_keys OFFICIAL_TEAM_NAMES ∧ (70 <= WRatio input name)%Q)
       ∧ ∀ b, b ∈ batting
              → ¬ active_id to_datetime_year people (Batting.playerid b))
  ∧ ((∃ pg, main WRatio to_datetime_year input people batting teams = Ok pg)
     ∨ main WRatio to_datetime_year input people batting teams = Raise KeyError).
Proof.
  unfold main. destruct (decide (input = EmptyString)) as [->|Hne].
  { split; [done|]. split; [split; [by intros [? ?]|by intros [? _]]|].
    split; [split; [done|by intros [? _]]|]. left. by eexists. }
  destruct (resolver_cases input) as (best & code & Hitem & Hmax & ->).
  assert (best ∈ dict_keys OFFICIAL_TEAM_NAMES) as Hbest.
  { apply list_elem_of_fmap. by exists (best, code). }
  destruct (Qle_bool 70 (WRatio input best)) eqn:Hle; cbn [result_bind].
  - apply Qle_bool_iff in Hle.
    assert (¬ ∀ name, name ∈ dict_keys OFFICIAL_TEAM_NAMES → (WRatio input name < 70)%Q)
      as Hnot.
    { intros Hall. specialize (Hall best Hbest). by apply Qlt_not_le in Hall. }
    pose proof (active_batting_nil to_datetime_year people batting) as Hnil.
    unfold team_player_names.
    destruct (only_team_players_cases to_datetime_year code people batting teams)
      as [[Hab ->]|[Hab ->]]; cbn [result_bind].
    + split; [done|]. split; [split; [by intros [? ?]|by intros [_ ?]]|].
      split; [|by right]. split; [|done]. intros _.
      split; [done|]. split; [by exists best|]. by apply Hnil.
    + destruct (page_of_names people batting teams
                  ("Matched team name: " +:+ best +:+ " → Franchise code: " +:+ code)
                  ("No active players found who only played for " +:+ best
                     +:+ " in their latest year.")
                  (omap (λ p, f ← People.namefirst p;
                              l ← People.namelast p; Some (f, l))
                     (filter (λ p, People.playerid p
                        ∈ select_only_team code
                            (teams_per_player_year
                               (latest_batting to_datetime_year people batting teams)))
                        people)))
        as (pg & -> & Hidle & Hmsg).
      split; [split; [by intros [= ?]|done]|].
      split; [split; [intros [msg [= ?]]; by destruct (Hmsg msg)|by intros [_ ?]]|].
      split; [|left; by eexists]. split; [done|].
      intros (_ & _ & Hno). by apply Hnil in Hno.
  - assert (∀ name, name ∈ dict_keys OFFICIAL_TEAM_NAMES → (WRatio input name < 70)%Q)
      as Hall.
    { intros name Hname. eapply Qle_lt_trans; [by apply Hmax|].
      apply Qnot_le_lt. by rewrite <-Qle_bool_iff, Hle. }
    split; [done|]. split; [split; [done|by eexists]|].
    split; [|left; by eexists]. split; [done|].
    intros (_ & (name & Hname & Hge) & _).
    specialize (Hall name Hname). by apply Qlt_not_le in Hall.
Qed.

End page_facts.

Lemma resolver_answer_sound_witness :
  ("Boston Red Sox", "BOS") ∈ OFFICIAL_TEAM_NAMES
  ∧ (70 <= prefix_score "Boston Red Sox" "Boston Red Sox")%Q
  ∧ (∀ name', name' ∈ dict_keys OFFICIAL_TEAM_NAMES →
              (prefix_score "Boston Red Sox" name'
               <= prefix_score "Boston Red Sox" "Boston Red Sox")%Q)
  ∧ team_full_name (Some "BOS") = "Boston Red Sox".
Proof.
  apply (resolver_answer_sound prefix_score "Boston Red Sox"). vm_compute. reflexivity.
Defined.

Example main_example :
  @main stable_sort prefix_score sample_to_datetime_year "New York Yankees"
     coerced_people roster_batting roster_teams
  = Ok (Chart "Matched team name: New York Yankees → Franchise code: NYY"
          [ MkBar 2 "Al Ace" 2018 "BOS (Boston Red Sox)" "#BD3039" (Some "BOS")
              "<b>Al Ace</b><br>Team: Boston Red Sox<br>Years: 2018-2019<extra></extra>"
              true;
            MkBar 1 "Al Ace" 2020 "NYY (New York Yankees)" "#003087" (Some "NYY")
              "<b>Al Ace</b><br>Team: New York Yankees<br>Years: 2020-2020<extra></extra>"
              true ]
          800)
  ∧ @main stable_sort prefix_score sample_to_datetime_year "New York Yankees"
       coerced_people [] roster_teams
    = Raise KeyError.
Proof. by vm_compute. Qed.
